(** * Brian's Brain: a shallow embedding of [briansbrain.c]

    The automaton lives in [int world[MAX_X][MAX_Y]].  The C functions
    [randint], [weighted_randint], [count_neighbours], [apply_rules],
    [populate], [print_world], [draw_world_rects] and the loop of [main]
    are translated below as executable Rocq functions:

    - a C [int] is a [Z]; signed additions are checked against the range
      of [int] (overflow is undefined behaviour, here [None]);
    - the array is a list of [MAX_X] columns of [MAX_Y] cells, read and
      written through [world_get] and [world_set], which answer [None]
      outside the array;
    - [for] loops are folds over the range of the loop variable, in the
      option monad, threading the mutated array (and, in [populate], the
      hidden state of [rand()]) through the iterations;
    - what is written to standard output is a list of characters, and the
      calls to the SDL library are recorded in the order they are made;
      the events the library reports are an input of the main loop. *)

From Stdlib Require Import ZArith Lia Bool Ascii.
From stdpp Require Import base option list list_numbers.

Local Open Scope Z_scope.

(** ** Constants of the source *)

Definition MAX_X : Z := 300.
Definition MAX_Y : Z := 300.
Definition DENSITY : Z := 7.

(** [enum {READY, REFRACTORY, FIRING}] *)
Definition READY : Z := 0.
Definition REFRACTORY : Z := 1.
Definition FIRING : Z := 2.

(** ** Machine integers *)

Definition INT_MIN : Z := -2147483648.
Definition INT_MAX : Z := 2147483647.

(** Signed addition on [int]: defined only when the sum is representable. *)
Definition int_add (a b : Z) : option Z :=
  let r := a + b in
  if (INT_MIN <=? r) && (r <=? INT_MAX) then Some r else None.

(** ** The world array *)

Abbreviation world := (list (list Z)).

(** [world[x][y]] as an rvalue. *)
Definition world_get (w : world) (x y : Z) : option Z :=
  if (0 <=? x) && (0 <=? y) then
    col ← w !! Z.to_nat x; col !! Z.to_nat y
  else None.

(** [world[x][y] = v]. *)
Definition world_set (w : world) (x y v : Z) : option world :=
  if (0 <=? x) && (0 <=? y) then
    col ← w !! Z.to_nat x;
    _ ← col !! Z.to_nat y;
    Some (<[Z.to_nat x := <[Z.to_nat y := v]> col]> w)
  else None.

(** The shape of an [int [MAX_X][MAX_Y]]. *)
Definition well_formed (w : world) : bool :=
  (Z.of_nat (length w) =? MAX_X)
  && forallb (λ col, Z.of_nat (length col) =? MAX_Y) w.

(** ** Loops *)

Fixpoint for_each {St : Type} (l : list Z) (body : Z → St → option St) (s : St)
  : option St :=
  match l with
  | [] => Some s
  | i :: rest => s' ← body i s; for_each rest body s'
  end.

(** [for (i = lo; i < hi; i++) body] *)
Definition for_range {St : Type} (lo hi : Z) (body : Z → St → option St) (s : St)
  : option St :=
  for_each (seqZ lo (hi - lo)) body s.

(** ** The random source

    [rand()] keeps a hidden state.  It is modelled by the sequence of the
    values it is going to return and the number of calls made so far. *)

Record rng : Type := { draws : nat → Z; pos : nat }.

Definition rand (g : rng) : Z * rng :=
  (draws g (pos g), {| draws := draws g; pos := S (pos g) |}).

(** ** The functions of the source *)

(** [weighted_randint]: 1 when the last digit of a fresh draw exceeds
    [true_weight], else 0.  C's [%] truncates, as [Z.rem] does. *)
Definition weighted_randint (true_weight : Z) (g : rng) : Z * rng :=
  let '(r, g') := rand g in
  let choice := Z.rem r 10 in
  (if true_weight <? choice then 1 else 0, g').

(** [count_neighbours]: [y] and [x] run over -1, 0, 1, the centre of the
    block included; the guard is tested on [cx], [cy], the cell is read
    at [x_pos + x], [y_pos + y]; [count] starts at 0. *)
Definition count_neighbours (world : world) (x_pos y_pos : Z) : option Z :=
  for_range (-1) 2 (λ y count,
    for_range (-1) 2 (λ x count,
      cx ← int_add x_pos x;
      cy ← int_add y_pos y;
      if ((0 <=? cx) && (cx <? MAX_X)) && ((0 <=? cy) && (cy <? MAX_Y)) then
        ix ← int_add x_pos x;
        iy ← int_add y_pos y;
        cell ← world_get world ix iy;
        if cell =? FIRING then int_add count 1 else Some count
      else Some count) count) 0.

(** [apply_rules]: [temp] is the copy made by [memcpy]; cells are read
    from [temp] and written to [world].  As in the source, [y] runs up to
    [MAX_X] and [x] up to [MAX_Y], and a [READY] cell whose count is not 2
    is not written. *)
Definition apply_rules (world0 : world) : option world :=
  let temp := world0 in
  for_range 0 MAX_X (λ y world,
    for_range 0 MAX_Y (λ x world,
      cell ← world_get temp x y;
      if cell =? READY then
        neighbours ← count_neighbours temp x y;
        if neighbours =? 2 then world_set world x y FIRING else Some world
      else if cell =? FIRING then world_set world x y REFRACTORY
      else world_set world x y READY) world) world0.

(** [populate]: the parameter [rand] hides the library function inside
    the body, as in the source.  When [rand] is 1 and [r] is not 1 the
    cell is not written. *)
Definition populate (world0 : world) (rand : Z) (g0 : rng)
  : option (world * rng) :=
  for_range 0 MAX_X (λ y s,
    for_range 0 MAX_Y (λ x '(world, g),
      if rand =? 1 then
        let '(r, g') := weighted_randint DENSITY g in
        if r =? 1 then
          world' ← world_set world x y FIRING; Some (world', g')
        else Some (world, g')
      else
        world' ← world_set world x y READY; Some (world', g)) s) (world0, g0).

(** The simulation part of [main]: seeding, then [n] times [apply_rules]. *)
Fixpoint generations (n : nat) (w : world) : option world :=
  match n with
  | O => Some w
  | S n' => w' ← apply_rules w; generations n' w'
  end.

Definition run (world0 : world) (rand : Z) (g0 : rng) (n : nat)
  : option world :=
  '(w, _) ← populate world0 rand g0; generations n w.

(** ** Vocabulary of the statements *)

(** The guard of [count_neighbours]: the position is inside the array. *)
Definition in_bounds (x y : Z) : bool :=
  ((0 <=? x) && (x <? MAX_X)) && ((0 <=? y) && (y <? MAX_Y)).

(** 1 when the position is inside the array and holds [FIRING], else 0. *)
Definition firing_at (w : world) (p : Z * Z) : Z :=
  if in_bounds p.1 p.2 then
    match world_get w p.1 p.2 with
    | Some cell => if cell =? FIRING then 1 else 0
    | None => 0
    end
  else 0.

Definition tally (w : world) (l : list (Z * Z)) : Z :=
  foldr (λ p acc, firing_at w p + acc) 0 l.

(** The nine positions of the 3x3 block, in the order the loops visit them. *)
Definition block (x y : Z) : list (Z * Z) :=
  [ (x + -1, y + -1); (x + 0, y + -1); (x + 1, y + -1);
    (x + -1, y + 0);  (x + 0, y + 0);  (x + 1, y + 0);
    (x + -1, y + 1);  (x + 0, y + 1);  (x + 1, y + 1) ].

(** The Moore neighbourhood: the eight surrounding offsets, centre left out. *)
Definition moore_offsets : list (Z * Z) :=
  [ (-1, -1); (0, -1); (1, -1); (-1, 0); (1, 0); (-1, 1); (0, 1); (1, 1) ].

Definition moore_positions (x y : Z) : list (Z * Z) :=
  map (λ d, (x + d.1, y + d.2)) moore_offsets.

(** The neighbours that exist: the grid does not wrap. *)
Definition moore_neighbours (x y : Z) : list (Z * Z) :=
  List.filter (λ p, in_bounds p.1 p.2) (moore_positions x y).

Definition is_firing (w : world) (p : Z * Z) : bool :=
  match world_get w p.1 p.2 with
  | Some cell => cell =? FIRING
  | None => false
  end.

(** Number of in-bounds Moore neighbours of [(x, y)] that are firing. *)
Definition firing_neighbours (w : world) (x y : Z) : Z :=
  Z.of_nat (length (List.filter (is_firing w) (moore_neighbours x y))).

(** What one iteration of [apply_rules] leaves in a cell that held [cell]
    in the copy and has [neighbours] firing cells in its block. *)
Definition next_state (cell neighbours : Z) : Z :=
  if cell =? READY then (if neighbours =? 2 then FIRING else READY)
  else if cell =? FIRING then REFRACTORY
  else READY.

Definition three_state (v : Z) : bool :=
  (v =? READY) || (v =? REFRACTORY) || (v =? FIRING).

(** What [populate] leaves in a cell holding [prior] when [rand()] returns [r]. *)
Definition seeded (r prior : Z) : Z :=
  if DENSITY <? Z.rem r 10 then FIRING else prior.

(** Index of the call of [rand()] that decides cell [(x, y)]. *)
Definition draw_index (x y : Z) : nat := Z.to_nat (y * MAX_Y + x).

(** ** The automaton as the specification words it

    Cells are a three-valued type; a generation maps every cell, at once,
    to its successor computed from the grid before the generation. *)
Module Simultaneous.

Inductive Cell : Type := Ready | Refractory | Firing.

Abbreviation grid := (list (list Cell)).

Definition get (g : grid) (x y : Z) : option Cell :=
  if (0 <=? x) && (0 <=? y) then
    col ← g !! Z.to_nat x; col !! Z.to_nat y
  else None.

Definition fires (g : grid) (p : Z * Z) : bool :=
  match get g p.1 p.2 with
  | Some Firing => true
  | _ => false
  end.

Definition count_firing_neighbors (g : grid) (x y : Z) : Z :=
  Z.of_nat (length (List.filter (fires g) (moore_neighbours x y))).

Definition transition (c : Cell) (n : Z) : Cell :=
  match c with
  | Ready => if n =? 2 then Firing else Ready
  | Firing => Refractory
  | Refractory => Ready
  end.

Definition advance (g : grid) : grid :=
  imap (λ x col,
    imap (λ y c,
      transition c (count_firing_neighbors g (Z.of_nat x) (Z.of_nat y)))
      col) g.

(** Reading the [int] codes of the array as cells. *)
Definition decode (v : Z) : option Cell :=
  if v =? READY then Some Ready
  else if v =? REFRACTORY then Some Refractory
  else if v =? FIRING then Some Firing
  else None.

Definition decode_world (w : world) : option grid :=
  mapM (mapM decode) w.

End Simultaneous.

(** ** Concrete arrays *)

Definition uniform_world (v : Z) : world :=
  replicate (Z.to_nat MAX_X) (replicate (Z.to_nat MAX_Y) v).

Definition put (w : world) (x y v : Z) : world :=
  default w (world_set w x y v).

(** All cells ready, except two firing cells at (1,2) and (3,2). *)
Definition two_firing : world :=
  put (put (uniform_world READY) 1 2 FIRING) 3 2 FIRING.

(** A corner whose three neighbours hold firing, firing, refractory. *)
Definition corner_world : world :=
  put (put (put (uniform_world READY) 1 0 FIRING) 0 1 FIRING) 1 1 REFRACTORY.

(** [two_firing] read as a grid of cells. *)
Definition two_firing_grid : Simultaneous.grid :=
  let ready := replicate (Z.to_nat MAX_Y) Simultaneous.Ready in
  let fired := <[2%nat := Simultaneous.Firing]> ready in
  <[3%nat := fired]> (<[1%nat := fired]> (replicate (Z.to_nat MAX_X) ready)).

(** A generator whose every draw is [r]. *)
Definition constant_rng (r : Z) : rng := {| draws := λ _, r; pos := 0 |}.

(** ** The rest of the source: output, drawing and the main loop *)

Definition WAIT : Z := 100000.
Definition CELLSIZE : Z := 2.
Definition LINE : Z := 1.
Definition DEPTH : Z := 32.

Definition int_sub (a b : Z) : option Z :=
  let r := a - b in
  if (INT_MIN <=? r) && (r <=? INT_MAX) then Some r else None.

Definition int_mul (a b : Z) : option Z :=
  let r := a * b in
  if (INT_MIN <=? r) && (r <=? INT_MAX) then Some r else None.

(** [randint]: the parity of a fresh draw. *)
Definition randint (g : rng) : Z * rng :=
  let '(r0, g') := rand g in
  let r := Z.rem r0 2 in
  (r, g').

(** Standard output is the list of the characters written so far. *)
Definition newline : ascii := "010"%char.

(** [print_world]: every cell as one character and a space, a newline
    after each pass of the inner loop and one more at the end.  The cell
    is read again for the second comparison, as in the source. *)
Definition print_world (world : world) (out0 : list ascii)
  : option (list ascii) :=
  out ← for_range 0 MAX_X (λ y out,
    out ← for_range 0 MAX_Y (λ x out,
      a ← world_get world x y;
      dc ← (if a =? FIRING then Some "@"%char
            else
              b ← world_get world x y;
              Some (if b =? REFRACTORY then "*"%char else "`"%char));
      Some (out ++ [dc; " "%char])) out;
    Some (out ++ [newline])) out0;
  Some (out ++ [newline]).

(** [SDL_Rect] has two [Sint16] and two [Uint16] fields: the [int]s of the
    initialiser are converted on the way in. *)
Record SDL_Rect : Type :=
  { rect_x : Z; rect_y : Z; rect_w : Z; rect_h : Z }.

Definition to_Sint16 (v : Z) : Z := (v + 32768) mod 65536 - 32768.
Definition to_Uint16 (v : Z) : Z := v mod 65536.

(** A pixel value: the result of [SDL_MapRGB] or a literal. *)
Inductive pixel : Type :=
  | MapRGB (r g b : Z)
  | Raw (v : Z).

(** The calls made to the library, in the order they are made.
    [FillRect None] is [SDL_FillRect] with a [NULL] rectangle. *)
Inductive SDL_call : Type :=
  | Init
  | SetVideoMode (width height bpp : Z)
  | FillRect (r : option SDL_Rect) (colour : pixel)
  | Flip
  | Sleep (usec : Z)
  | Quit.

(** [draw_world_rects]: here [y] runs up to [MAX_Y] and [x] up to [MAX_X].
    The rectangle is built before the cell is looked at; [red] is mapped
    and never used, as in the source. *)
Definition draw_world_rects (world : world) (cellsize linew : Z)
    (calls0 : list SDL_call) : option (list SDL_call) :=
  let blue := MapRGB 0 0 255 in
  let green := MapRGB 0 255 0 in
  let red := MapRGB 255 0 0 in
  for_range 0 MAX_Y (λ y calls,
    for_range 0 MAX_X (λ x calls,
      rx ← int_mul x cellsize;
      ry ← int_mul y cellsize;
      rw ← int_sub cellsize linew;
      rh ← int_sub cellsize linew;
      let cell := {| rect_x := to_Sint16 rx; rect_y := to_Sint16 ry;
                     rect_w := to_Uint16 rw; rect_h := to_Uint16 rh |} in
      a ← world_get world x y;
      if a =? FIRING then Some (calls ++ [FillRect (Some cell) green])
      else
        b ← world_get world x y;
        if b =? REFRACTORY then Some (calls ++ [FillRect (Some cell) blue])
        else Some calls) calls) calls0.

(** The type of an event returned by [SDL_PollEvent]. *)
Inductive SDL_event : Type := SDL_QUIT | SDL_KEYDOWN | SDL_other.

(** The inner [while (SDL_PollEvent(&event))]: all pending events are taken. *)
Definition poll_events (pending : list SDL_event) (user_exit : Z) : Z :=
  foldl (λ user_exit event,
           match event with
           | SDL_QUIT => 1
           | SDL_KEYDOWN => 1
           | SDL_other => user_exit
           end) user_exit pending.

Record machine : Type :=
  { m_world : world; m_user_exit : Z; m_calls : list SDL_call }.

(** One turn of the main loop; [pending] is what the event queue holds
    when the turn polls it. *)
Definition main_frame (pending : list SDL_event) (st : machine)
  : option machine :=
  let calls := m_calls st ++ [FillRect None (Raw 0)] in
  world ← apply_rules (m_world st);
  calls ← draw_world_rects world CELLSIZE LINE calls;
  let calls := calls ++ [Flip] in
  let user_exit := poll_events pending (m_user_exit st) in
  Some {| m_world := world; m_user_exit := user_exit;
          m_calls := calls ++ [Sleep WAIT] |}.

(** How the loop stands when the given input is used up. *)
Inductive outcome : Type :=
  | Exited (st : machine)
  | Running (st : machine).

(** [while (!user_exit) ...; SDL_Quit()], one list of pending events per
    turn. *)
Fixpoint main_loop (input : list (list SDL_event)) (st : machine)
  : option outcome :=
  if m_user_exit st =? 0 then
    match input with
    | [] => Some (Running st)
    | pending :: rest => st' ← main_frame pending st; main_loop rest st'
    end
  else
    Some (Exited {| m_world := m_world st; m_user_exit := m_user_exit st;
                    m_calls := m_calls st ++ [Quit] |}).

(** [main]: [world0] and [user_exit0] are what the two uninitialised
    locals happen to hold, [g0] the generator as [srand(time(0))] leaves
    it. *)
Definition main (world0 : world) (user_exit0 : Z) (g0 : rng)
    (input : list (list SDL_event)) : option outcome :=
  '(world, _) ← populate world0 1 g0;
  let calls :=
    [Init; SetVideoMode (MAX_X * CELLSIZE) (MAX_Y * CELLSIZE) DEPTH] in
  main_loop input
    {| m_world := world; m_user_exit := user_exit0; m_calls := calls |}.

(** ** Vocabulary for the output and the drawing *)

(** The character [print_world] writes for a cell. *)
Definition glyph (v : Z) : ascii :=
  if v =? FIRING then "@"%char
  else if v =? REFRACTORY then "*"%char
  else "`"%char.

(** The cell at a position, [READY] standing in where there is none. *)
Definition cell_at (w : world) (x y : Z) : Z :=
  default READY (world_get w x y).

Definition row_text (w : world) (y : Z) : list ascii :=
  (seqZ 0 MAX_Y ≫= λ x, [glyph (cell_at w x y); " "%char]) ++ [newline].

Definition world_text (w : world) : list ascii :=
  (seqZ 0 MAX_X ≫= row_text w) ++ [newline].

(** The rectangle of a cell, when nothing wraps. *)
Definition cell_rect (cellsize linew x y : Z) : SDL_Rect :=
  {| rect_x := to_Sint16 (x * cellsize); rect_y := to_Sint16 (y * cellsize);
     rect_w := to_Uint16 (cellsize - linew);
     rect_h := to_Uint16 (cellsize - linew) |}.

(** A generator whose draws are all 0, except draw number [i], which is 9. *)
Definition spiked_rng (i : nat) : rng :=
  {| draws := λ n, if Nat.eqb n i then 9 else 0; pos := 0 |}.

(** The calls [draw_world_rects] makes for one cell. *)
Definition cell_calls (w : world) (cellsize linew x y : Z) : list SDL_call :=
  if cell_at w x y =? FIRING then
    [FillRect (Some (cell_rect cellsize linew x y)) (MapRGB 0 255 0)]
  else if cell_at w x y =? REFRACTORY then
    [FillRect (Some (cell_rect cellsize linew x y)) (MapRGB 0 0 255)]
  else [].

Definition world_calls (w : world) (cellsize linew : Z) : list SDL_call :=
  seqZ 0 MAX_Y ≫= λ y, seqZ 0 MAX_X ≫= λ x, cell_calls w cellsize linew x y.

(** The pixels a rectangle covers. *)
Definition covers (r : SDL_Rect) (px py : Z) : Prop :=
  rect_x r ≤ px < rect_x r + rect_w r ∧ rect_y r ≤ py < rect_y r + rect_h r.


Definition all_three_state (w : world) : bool :=
  forallb (forallb three_state) w.

(** ** The drawing, call by call *)

(** The positions in the order [draw_world_rects] visits them. *)
Definition draw_order : list (Z * Z) :=
  seqZ 0 MAX_Y ≫= λ y, (λ x, (x, y)) <$> seqZ 0 MAX_X.

(** The states that are drawn. *)
Definition drawn_state (v : Z) : bool := (v =? FIRING) || (v =? REFRACTORY).

(** The call made for a drawn cell. *)
Definition cell_call (w : world) (cellsize linew : Z) (p : Z * Z) : SDL_call :=
  FillRect (Some (cell_rect cellsize linew p.1 p.2))
    (if cell_at w p.1 p.2 =? FIRING then MapRGB 0 255 0 else MapRGB 0 0 255).

(** One call per position that holds a drawn state, in the order of the
    visit. *)
Definition drawn_calls (w : world) (cellsize linew : Z) : list SDL_call :=
  cell_call w cellsize linew
    <$> List.filter (λ p, drawn_state (cell_at w p.1 p.2)) draw_order.



(** ** The memory [apply_rules] runs in *)

(** What [apply_rules] can reach when it is called: the array it is
    given, the stack slot of its local [temp], which holds on entry
    whatever the stack held, and the hidden state of [rand()]. *)
Record memory : Type :=
  { mem_world : world; mem_temp : world; mem_rand : rng }.

(** [memcpy(dst, src, n * sizeof(int))]: the first [n] cells are copied,
    in the order the arrays lie in memory, [a[x][y]] at [x * MAX_Y + y]. *)
Definition memcpy_cells (dst src : world) (n : Z) : option world :=
  for_range 0 n (λ k dst,
    v ← world_get src (k / MAX_Y) (k mod MAX_Y);
    world_set dst (k / MAX_Y) (k mod MAX_Y) v) dst.

(** [apply_rules], statement by statement, on that memory; [sizeof(temp)]
    is [MAX_X * MAX_Y] cells. *)
Definition apply_rules_in (m : memory) : option memory :=
  temp ← memcpy_cells (mem_temp m) (mem_world m) (MAX_X * MAX_Y);
  world ← for_range 0 MAX_X (λ y world,
    for_range 0 MAX_Y (λ x world,
      cell ← world_get temp x y;
      if cell =? READY then
        neighbours ← count_neighbours temp x y;
        if neighbours =? 2 then world_set world x y FIRING else Some world
      else if cell =? FIRING then world_set world x y REFRACTORY
      else world_set world x y READY) world) (mem_world m);
  Some {| mem_world := world; mem_temp := temp; mem_rand := mem_rand m |}.

(** ** Loop invariants *)

(** Both loop nests visit the cells row after row: [(a, b)] is visited
    before the iteration at [(x, y)]. *)
Definition before (x y a b : Z) : Prop := b < y ∨ (b = y ∧ a < x).

(** The state [apply_rules] computes for a cell from the copy [temp]. *)
Definition successor (temp : world) (x y : Z) : option Z :=
  cell ← world_get temp x y;
  neighbours ← count_neighbours temp x y;
  Some (next_state cell neighbours).

Definition rules_inv (temp : world) (x y : Z) (w : world) : Prop :=
  well_formed w = true
  ∧ (∀ a b, in_bounds a b = true →
       world_get w a b = world_get temp a b
       ∨ world_get w a b = successor temp a b)
  ∧ (∀ a b, in_bounds a b = true → before x y a b →
       world_get w a b = successor temp a b).

(** What [populate] writes in a visited cell. *)
Definition populated (rand : Z) (g0 : rng) (x y prior : Z) : Z :=
  if rand =? 1 then seeded (draws g0 (pos g0 + draw_index x y)%nat) prior
  else READY.

Definition populate_inv (world0 : world) (rand : Z) (g0 : rng) (x y : Z)
    (s : world * rng) : Prop :=
  well_formed s.1 = true
  ∧ draws s.2 = draws g0
  ∧ pos s.2 = (pos g0 + (if (rand =? 1)%Z then draw_index x y else 0))%nat
  ∧ ∀ a b prior, in_bounds a b = true → world_get world0 a b = Some prior →
      (before x y a b →
         world_get s.1 a b = Some (populated rand g0 a b prior))
      ∧ (¬ before x y a b → world_get s.1 a b = Some prior).

(** * Properties *)

(** ** Dimensions *)

Lemma MAX_square : MAX_X = MAX_Y.
Proof. reflexivity. Qed.

Lemma MAX_X_range : 0 < MAX_X ∧ MAX_X < INT_MAX.
Proof. unfold MAX_X, INT_MAX. lia. Qed.

Lemma MAX_Y_range : 0 < MAX_Y ∧ MAX_Y < INT_MAX.
Proof. unfold MAX_Y, INT_MAX. lia. Qed.

Lemma INT_MIN_val : INT_MIN = -2147483648.
Proof. reflexivity. Qed.

Lemma INT_MAX_val : INT_MAX = 2147483647.
Proof. reflexivity. Qed.

Ltac dims :=
  pose proof MAX_square; pose proof MAX_X_range; pose proof MAX_Y_range;
  pose proof INT_MIN_val; pose proof INT_MAX_val.

Lemma in_bounds_true x y :
  in_bounds x y = true ↔ (0 ≤ x < MAX_X) ∧ (0 ≤ y < MAX_Y).
Proof. unfold in_bounds. rewrite !andb_true_iff. lia. Qed.

Lemma in_bounds_false x y :
  in_bounds x y = false ↔ ¬ ((0 ≤ x < MAX_X) ∧ (0 ≤ y < MAX_Y)).
Proof. rewrite <- in_bounds_true. destruct (in_bounds x y); intuition congruence. Qed.

Lemma int_add_small a b :
  INT_MIN ≤ a + b ≤ INT_MAX → int_add a b = Some (a + b).
Proof.
  intros H. unfold int_add. cbv zeta.
  destruct (Z.leb_spec INT_MIN (a + b)); [|lia].
  destruct (Z.leb_spec (a + b) INT_MAX); [reflexivity|lia].
Qed.

(** ** Shape of the array *)

Lemma well_formed_iff (w : world) :
  well_formed w = true ↔
  Z.of_nat (length w) = MAX_X ∧
  ∀ i col, w !! i = Some col → Z.of_nat (length col) = MAX_Y.
Proof.
  unfold well_formed. rewrite andb_true_iff, Z.eqb_eq, forallb_forall.
  split; intros [Hl Hc]; split; try assumption.
  - intros i col Hi. apply Z.eqb_eq, Hc.
    apply list_elem_of_In. eapply list_elem_of_lookup_2; eassumption.
  - intros col Hin. apply Z.eqb_eq.
    apply list_elem_of_In, list_elem_of_lookup_1 in Hin as [i Hi]. eauto.
Qed.

Lemma well_formed_get (w : world) x y :
  well_formed w = true → in_bounds x y = true →
  ∃ cell, world_get w x y = Some cell.
Proof.
  intros [Hl Hc]%well_formed_iff [Hx Hy]%in_bounds_true.
  unfold world_get.
  destruct (Z.leb_spec 0 x); [|lia]. destruct (Z.leb_spec 0 y); [|lia].
  destruct (lookup_lt_is_Some_2 w (Z.to_nat x)) as [col Hcol]; [lia|].
  rewrite Hcol. cbn.
  specialize (Hc _ _ Hcol).
  destruct (lookup_lt_is_Some_2 col (Z.to_nat y)) as [c Hcell]; [lia|].
  eauto.
Qed.

Lemma world_get_in_bounds (w : world) x y cell :
  well_formed w = true → world_get w x y = Some cell → in_bounds x y = true.
Proof.
  intros [Hl Hc]%well_formed_iff. unfold world_get.
  destruct (Z.leb_spec 0 x); [|discriminate].
  destruct (Z.leb_spec 0 y); [|discriminate]. cbn.
  destruct (w !! Z.to_nat x) as [col|] eqn:Hcol; [|discriminate]. cbn.
  intros Hcell. apply in_bounds_true.
  specialize (Hc _ _ Hcol).
  apply lookup_lt_Some in Hcol, Hcell. lia.
Qed.

Lemma world_set_spec (w : world) x y v :
  well_formed w = true → in_bounds x y = true →
  ∃ w', world_set w x y v = Some w'
        ∧ well_formed w' = true
        ∧ world_get w' x y = Some v
        ∧ ∀ x' y', (x', y') ≠ (x, y) → world_get w' x' y' = world_get w x' y'.
Proof.
  intros Hwf [Hx Hy]%in_bounds_true.
  pose proof Hwf as [Hl Hc]%well_formed_iff.
  unfold world_set.
  destruct (Z.leb_spec 0 x); [|lia]. destruct (Z.leb_spec 0 y); [|lia].
  destruct (lookup_lt_is_Some_2 w (Z.to_nat x)) as [col Hcol]; [lia|].
  pose proof (Hc _ _ Hcol) as Hlen.
  destruct (lookup_lt_is_Some_2 col (Z.to_nat y)) as [c Hcell]; [lia|].
  rewrite Hcol. cbn. rewrite Hcell. cbn.
  eexists. split; [reflexivity|]. split; [|split].
  - apply well_formed_iff. rewrite length_insert. split; [assumption|].
    intros i col' Hi.
    destruct (decide (i = Z.to_nat x)) as [->|Hne].
    + rewrite list_lookup_insert_eq in Hi by (apply lookup_lt_Some in Hcol; lia).
      injection Hi as <-. rewrite length_insert. assumption.
    + rewrite list_lookup_insert_ne in Hi by congruence. eauto.
  - unfold world_get.
    destruct (Z.leb_spec 0 x); [|lia]. destruct (Z.leb_spec 0 y); [|lia].
    rewrite list_lookup_insert_eq by (apply lookup_lt_Some in Hcol; lia). cbn.
    apply list_lookup_insert_eq. lia.
  - intros x' y' Hne. unfold world_get.
    destruct (Z.leb_spec 0 x'); [|reflexivity].
    destruct (Z.leb_spec 0 y'); [|reflexivity]. cbn.
    destruct (decide (Z.to_nat x' = Z.to_nat x)) as [Heq|Hneq].
    + rewrite Heq.
      rewrite list_lookup_insert_eq by (apply lookup_lt_Some in Hcol; lia).
      rewrite Hcol. cbn. apply list_lookup_insert_ne.
      intros Hy'. apply Hne. f_equal; lia.
    + rewrite list_lookup_insert_ne by congruence. reflexivity.
Qed.

(** ** The loop rule: an invariant indexed by the loop variable *)

Lemma for_range_inv {St : Type} (I : Z → St → Prop) lo hi
    (body : Z → St → option St) s :
  lo ≤ hi →
  I lo s →
  (∀ i t, lo ≤ i < hi → I i t → ∃ t', body i t = Some t' ∧ I (i + 1) t') →
  ∃ s', for_range lo hi body s = Some s' ∧ I hi s'.
Proof.
  unfold for_range. intros Hle.
  remember (Z.to_nat (hi - lo)) as n eqn:Hn.
  revert lo s Hle Hn. induction n as [|n IH]; intros lo s Hle Hn Hinit Hstep.
  - assert (lo = hi) as -> by lia. rewrite seqZ_nil by lia. cbn. eauto.
  - rewrite seqZ_cons by lia. cbn.
    destruct (Hstep lo s) as (t & -> & Ht); [lia|assumption|]. cbn.
    replace (Z.pred (hi - lo)) with (hi - Z.succ lo) by lia.
    replace (Z.succ lo) with (lo + 1) in * by lia.
    apply IH; [lia|lia|assumption|].
    intros i u Hi Hu. apply Hstep; [lia|assumption].
Qed.

(** ** count_neighbours *)

Lemma firing_at_range w p : 0 ≤ firing_at w p ≤ 1.
Proof.
  unfold firing_at. destruct (in_bounds _ _); [|lia].
  destruct (world_get _ _ _) as [c|]; [|lia]. destruct (c =? FIRING); lia.
Qed.

Lemma tally_range w l : 0 ≤ tally w l ≤ Z.of_nat (length l).
Proof.
  unfold tally. induction l as [|p l IH]; cbn [foldr length]; [lia|].
  pose proof (firing_at_range w p). lia.
Qed.

(** One iteration of the inner loop adds the indicator of its position. *)
Lemma count_step (w : world) x_pos y_pos x y count :
  well_formed w = true →
  INT_MIN ≤ x_pos + x ≤ INT_MAX → INT_MIN ≤ y_pos + y ≤ INT_MAX →
  0 ≤ count < INT_MAX →
  (cx ← int_add x_pos x;
   cy ← int_add y_pos y;
   if ((0 <=? cx) && (cx <? MAX_X)) && ((0 <=? cy) && (cy <? MAX_Y)) then
     ix ← int_add x_pos x;
     iy ← int_add y_pos y;
     cell ← world_get w ix iy;
     if cell =? FIRING then int_add count 1 else Some count
   else Some count)
  = Some (count + firing_at w (x_pos + x, y_pos + y)).
Proof.
  intros Hwf Hx Hy Hc.
  rewrite (int_add_small x_pos x), (int_add_small y_pos y) by assumption.
  cbn [mbind option_bind].
  unfold firing_at. cbn [fst snd]. fold (in_bounds (x_pos + x) (y_pos + y)).
  destruct (in_bounds (x_pos + x) (y_pos + y)) eqn:Hin.
  - destruct (well_formed_get w _ _ Hwf Hin) as [cell ->]. cbn.
    destruct (cell =? FIRING).
    + apply int_add_small. dims. lia.
    + f_equal. lia.
  - f_equal. lia.
Qed.

Ltac firing_bounds w :=
  repeat match goal with
  | |- context [firing_at w ?p] =>
      lazymatch goal with
      | _ : 0 ≤ firing_at w p ≤ 1 |- _ => fail
      | _ => pose proof (firing_at_range w p)
      end
  end.

Lemma seqZ_offsets : seqZ (-1) (2 - -1) = [-1; 0; 1].
Proof. reflexivity. Qed.

Lemma count_neighbours_tally (w : world) x_pos y_pos :
  well_formed w = true →
  INT_MIN < x_pos < INT_MAX → INT_MIN < y_pos < INT_MAX →
  count_neighbours w x_pos y_pos = Some (tally w (block x_pos y_pos)).
Proof.
  intros Hwf Hx Hy. dims.
  unfold count_neighbours, for_range. rewrite seqZ_offsets.
  cbn [for_each].
  repeat (rewrite count_step;
          [ cbn [mbind option_bind] | assumption | lia | lia
          | firing_bounds w; lia ]).
  f_equal. unfold tally, block. cbn [foldr]. lia.
Qed.

(** The block is the Moore neighbourhood plus the centre. *)
Lemma tally_block w x y :
  tally w (block x y) = tally w (moore_positions x y) + firing_at w (x, y).
Proof.
  unfold tally, block, moore_positions, moore_offsets.
  cbn [foldr map fst snd]. rewrite !Z.add_0_r. lia.
Qed.

Lemma tally_filter w l :
  tally w l =
  Z.of_nat (length (List.filter (is_firing w)
                      (List.filter (λ p, in_bounds p.1 p.2) l))).
Proof.
  unfold tally. induction l as [|p l IH]; [reflexivity|].
  cbn [foldr List.filter]. rewrite IH. unfold firing_at at 1.
  destruct (in_bounds p.1 p.2); [|lia].
  cbn [List.filter]. unfold is_firing at 2.
  destruct (world_get w p.1 p.2) as [c|]; [|lia].
  destruct (c =? FIRING); cbn [length]; lia.
Qed.

Lemma firing_neighbours_tally w x y :
  firing_neighbours w x y = tally w (moore_positions x y).
Proof. unfold firing_neighbours, moore_neighbours. symmetry. apply tally_filter. Qed.

Lemma firing_at_centre w x y cell :
  world_get w x y = Some cell → cell ≠ FIRING → firing_at w (x, y) = 0.
Proof.
  intros Hc Hne. unfold firing_at. cbn [fst snd]. rewrite Hc.
  destruct (Z.eqb_spec cell FIRING); [contradiction|].
  destruct (in_bounds x y); reflexivity.
Qed.

Lemma in_bounds_int x y :
  in_bounds x y = true → INT_MIN < x < INT_MAX ∧ INT_MIN < y < INT_MAX.
Proof. intros ?%in_bounds_true. dims. lia. Qed.

Lemma count_neighbours_moore (w : world) x y :
  well_formed w = true → in_bounds x y = true →
  count_neighbours w x y
  = Some (firing_neighbours w x y + firing_at w (x, y)).
Proof.
  intros Hwf [Hx Hy]%in_bounds_int.
  rewrite count_neighbours_tally by assumption.
  rewrite tally_block, firing_neighbours_tally. reflexivity.
Qed.

Lemma successor_some (w : world) x y cell :
  well_formed w = true → world_get w x y = Some cell →
  successor w x y
  = Some (next_state cell (firing_neighbours w x y + firing_at w (x, y))).
Proof.
  intros Hwf Hc. unfold successor. rewrite Hc. cbn.
  rewrite count_neighbours_moore; [reflexivity|assumption|].
  eapply world_get_in_bounds; eassumption.
Qed.

(** ** apply_rules *)

(** One iteration writes the successor of its cell and nothing else. *)
Lemma rules_body (temp w : world) x y :
  well_formed temp = true → well_formed w = true → in_bounds x y = true →
  (world_get w x y = world_get temp x y
   ∨ world_get w x y = successor temp x y) →
  ∃ w',
    (cell ← world_get temp x y;
     if cell =? READY then
       neighbours ← count_neighbours temp x y;
       if neighbours =? 2 then world_set w x y FIRING else Some w
     else if cell =? FIRING then world_set w x y REFRACTORY
     else world_set w x y READY) = Some w'
    ∧ well_formed w' = true
    ∧ world_get w' x y = successor temp x y
    ∧ ∀ a b, (a, b) ≠ (x, y) → world_get w' a b = world_get w a b.
Proof.
  intros Htemp Hw Hin Hcur.
  destruct (well_formed_get temp x y Htemp Hin) as [cell Hcell].
  rewrite (successor_some temp x y cell Htemp Hcell) in *.
  rewrite Hcell in *. cbn [mbind option_bind].
  rewrite count_neighbours_moore by assumption. cbn [mbind option_bind].
  unfold next_state in *.
  destruct (cell =? READY) eqn:Hready.
  - apply Z.eqb_eq in Hready.
    destruct (_ =? 2).
    + apply world_set_spec; assumption.
    + exists w. repeat split; [assumption|].
      destruct Hcur as [->| ->]; congruence.
  - destruct (cell =? FIRING); apply world_set_spec; assumption.
Qed.

Lemma rules_step (temp w : world) x y :
  well_formed temp = true → in_bounds x y = true →
  rules_inv temp x y w →
  ∃ w',
    (cell ← world_get temp x y;
     if cell =? READY then
       neighbours ← count_neighbours temp x y;
       if neighbours =? 2 then world_set w x y FIRING else Some w
     else if cell =? FIRING then world_set w x y REFRACTORY
     else world_set w x y READY) = Some w'
    ∧ rules_inv temp (x + 1) y w'.
Proof.
  intros Htemp Hin (Hw & Hany & Hvis).
  destruct (rules_body temp w x y Htemp Hw Hin (Hany _ _ Hin))
    as (w' & Hrun & Hw' & Hxy & Hframe).
  exists w'. split; [assumption|]. split; [assumption|]. split.
  - intros a b Hab. destruct (decide ((a, b) = (x, y))) as [[= -> ->]|Hne].
    + right. assumption.
    + rewrite Hframe by assumption. auto.
  - intros a b Hab Hbefore.
    destruct (decide ((a, b) = (x, y))) as [[= -> ->]|Hne]; [assumption|].
    rewrite Hframe by assumption. apply Hvis; [assumption|].
    unfold before in *.
    assert (a ≠ x ∨ b ≠ y) by (destruct (decide (a = x)); [right|left]; congruence).
    lia.
Qed.

Lemma rules_row (temp w : world) y :
  well_formed temp = true → 0 ≤ y < MAX_X →
  rules_inv temp 0 y w →
  ∃ w',
    for_range 0 MAX_Y (λ x world,
      cell ← world_get temp x y;
      if cell =? READY then
        neighbours ← count_neighbours temp x y;
        if neighbours =? 2 then world_set world x y FIRING else Some world
      else if cell =? FIRING then world_set world x y REFRACTORY
      else world_set world x y READY) w = Some w'
    ∧ rules_inv temp 0 (y + 1) w'.
Proof.
  intros Htemp Hy Hinv. dims.
  destruct (for_range_inv (λ x, rules_inv temp x y) 0 MAX_Y
              (λ x world,
                 cell ← world_get temp x y;
                 if cell =? READY then
                   neighbours ← count_neighbours temp x y;
                   if neighbours =? 2 then world_set world x y FIRING
                   else Some world
                 else if cell =? FIRING then world_set world x y REFRACTORY
                 else world_set world x y READY) w)
    as (w' & Hrun & Hw' & Hany & Hvis); [lia|assumption| |].
  - intros x t Hx Ht. apply rules_step; [assumption| |assumption].
    apply in_bounds_true. lia.
  - exists w'. split; [assumption|]. split; [assumption|].
    split; [assumption|].
    intros a b Hab Hbefore. apply Hvis; [assumption|].
    apply in_bounds_true in Hab. unfold before in *. lia.
Qed.

(** [apply_rules] is total on a well-shaped array and leaves in every cell
    the successor computed from the array it was given. *)
Lemma apply_rules_successor (w : world) :
  well_formed w = true →
  ∃ w', apply_rules w = Some w'
        ∧ well_formed w' = true
        ∧ ∀ x y, in_bounds x y = true → world_get w' x y = successor w x y.
Proof.
  intros Hwf. dims. unfold apply_rules. cbv zeta.
  destruct (for_range_inv (λ y, rules_inv w 0 y) 0 MAX_X
              (λ y world,
                 for_range 0 MAX_Y (λ x world,
                   cell ← world_get w x y;
                   if cell =? READY then
                     neighbours ← count_neighbours w x y;
                     if neighbours =? 2 then world_set world x y FIRING
                     else Some world
                   else if cell =? FIRING then world_set world x y REFRACTORY
                   else world_set world x y READY) world) w)
    as (w' & Hrun & Hw' & Hany & Hvis); [lia| | |].
  - split; [assumption|]. split; [auto|].
    intros a b Hab%in_bounds_true Hbefore. unfold before in *. lia.
  - intros y t Hy Ht. apply rules_row; assumption.
  - exists w'. split; [assumption|]. split; [assumption|].
    intros x y Hxy. apply Hvis; [assumption|].
    apply in_bounds_true in Hxy. unfold before. lia.
Qed.

Lemma apply_rules_cell (w w' : world) x y cell :
  well_formed w = true → apply_rules w = Some w' →
  world_get w x y = Some cell →
  world_get w' x y
  = Some (next_state cell (firing_neighbours w x y + firing_at w (x, y))).
Proof.
  intros Hwf Hrun Hcell.
  destruct (apply_rules_successor w Hwf) as (w'' & Hrun' & _ & Hall).
  assert (w'' = w') as -> by congruence.
  rewrite Hall by (eapply world_get_in_bounds; eassumption).
  apply successor_some; assumption.
Qed.

(** ** populate *)

(** [rand()] returns a value between 0 and [RAND_MAX]: the digit compared
    with the weight lies in [0, 10). *)
Lemma weighted_randint_digit (true_weight : Z) (g : rng) :
  0 ≤ draws g (pos g) →
  0 ≤ Z.rem (draws g (pos g)) 10 < 10
  ∧ (weighted_randint true_weight g).1
    = (if true_weight <? Z.rem (draws g (pos g)) 10 then 1 else 0).
Proof.
  intros Hr. split; [|reflexivity].
  rewrite Z.rem_mod_nonneg by lia. apply Z.mod_pos_bound. lia.
Qed.

Lemma draw_index_next x y :
  0 ≤ x → 0 ≤ y → draw_index (x + 1) y = S (draw_index x y).
Proof. intros Hx Hy. unfold draw_index. dims. nia. Qed.

Lemma draw_index_row y : 0 ≤ y → draw_index MAX_Y y = draw_index 0 (y + 1).
Proof. intros Hy. unfold draw_index. f_equal. lia. Qed.

(** One iteration: a draw decides between [FIRING] and no write at all
    when [rand] is 1; [READY] is written, and no draw made, otherwise. *)
Lemma populate_body (w : world) (flag : Z) (g : rng) x y prior :
  well_formed w = true → in_bounds x y = true →
  world_get w x y = Some prior →
  ∃ w' g',
    (if flag =? 1 then
       let '(r, g') := weighted_randint DENSITY g in
       if r =? 1 then
         world' ← world_set w x y FIRING; Some (world', g')
       else Some (w, g')
     else
       world' ← world_set w x y READY; Some (world', g)) = Some (w', g')
    ∧ well_formed w' = true
    ∧ world_get w' x y
      = Some (if flag =? 1 then seeded (draws g (pos g)) prior else READY)
    ∧ (∀ a b, (a, b) ≠ (x, y) → world_get w' a b = world_get w a b)
    ∧ draws g' = draws g
    ∧ pos g' = (pos g + (if (flag =? 1)%Z then 1 else 0))%nat.
Proof.
  intros Hwf Hin Hprior.
  destruct (flag =? 1).
  - unfold weighted_randint, rand, seeded. cbv zeta.
    destruct (DENSITY <? Z.rem (draws g (pos g)) 10).
    + change (1 =? 1) with true. cbv iota.
      destruct (world_set_spec w x y FIRING Hwf Hin)
        as (w' & -> & Hw' & Hxy & Hframe). cbn.
      eexists _, _. split; [reflexivity|]. cbn. intuition lia.
    + change (0 =? 1) with false. cbv iota.
      eexists _, _. split; [reflexivity|]. cbn. intuition lia.
  - destruct (world_set_spec w x y READY Hwf Hin)
      as (w' & -> & Hw' & Hxy & Hframe). cbn.
    eexists _, _. split; [reflexivity|]. intuition lia.
Qed.

Lemma populate_step (world0 : world) (rand : Z) (g0 : rng) x y s :
  in_bounds x y = true →
  well_formed world0 = true →
  populate_inv world0 rand g0 x y s →
  ∃ s',
    (let '(world, g) := s in
     if rand =? 1 then
       let '(r, g') := weighted_randint DENSITY g in
       if r =? 1 then
         world' ← world_set world x y FIRING; Some (world', g')
       else Some (world, g')
     else
       world' ← world_set world x y READY; Some (world', g)) = Some s'
    ∧ populate_inv world0 rand g0 (x + 1) y s'.
Proof.
  intros Hin Hwf0 Hinv. destruct s as [w g].
  destruct Hinv as (Hwf & Hdraws & Hpos & Hcells). cbn [fst snd] in *.
  destruct (well_formed_get world0 x y Hwf0 Hin) as [prior Hprior].
  assert (¬ before x y x y) as Hnot by (unfold before; lia).
  pose proof (proj2 (Hcells x y prior Hin Hprior) Hnot) as Hcur.
  destruct (populate_body w rand g x y prior Hwf Hin Hcur)
    as (w' & g' & Hrun & Hw' & Hxy & Hframe & Hdraws' & Hpos').
  exists (w', g'). split; [assumption|].
  pose proof Hin as [Hx Hy]%in_bounds_true.
  unfold populate_inv. cbn [fst snd].
  split; [assumption|]. split; [congruence|]. split.
  - rewrite Hpos', Hpos. destruct (rand =? 1); [|lia].
    rewrite draw_index_next by lia. lia.
  - intros a b p Hab Hp.
    destruct (decide ((a, b) = (x, y))) as [[= -> ->]|Hne].
    + split; [|unfold before; lia]. intros _.
      assert (p = prior) as -> by congruence.
      rewrite Hxy. unfold populated. destruct (rand =? 1); [|reflexivity].
      rewrite Hdraws, Hpos. reflexivity.
    + rewrite Hframe by assumption.
      assert (before (x + 1) y a b ↔ before x y a b) as ->.
      { assert (a ≠ x ∨ b ≠ y)
          by (destruct (decide (a = x)); [right|left]; congruence).
        unfold before. lia. }
      apply Hcells; assumption.
Qed.

Lemma populate_row (world0 : world) (rand : Z) (g0 : rng) y s :
  well_formed world0 = true → 0 ≤ y < MAX_X →
  populate_inv world0 rand g0 0 y s →
  ∃ s',
    for_range 0 MAX_Y (λ x '(world, g),
      if rand =? 1 then
        let '(r, g') := weighted_randint DENSITY g in
        if r =? 1 then
          world' ← world_set world x y FIRING; Some (world', g')
        else Some (world, g')
      else
        world' ← world_set world x y READY; Some (world', g)) s = Some s'
    ∧ populate_inv world0 rand g0 0 (y + 1) s'.
Proof.
  intros Hwf0 Hy Hinv. dims.
  destruct (for_range_inv (λ x, populate_inv world0 rand g0 x y) 0 MAX_Y
              (λ x '(world, g),
                 if rand =? 1 then
                   let '(r, g') := weighted_randint DENSITY g in
                   if r =? 1 then
                     world' ← world_set world x y FIRING; Some (world', g')
                   else Some (world, g')
                 else
                   world' ← world_set world x y READY; Some (world', g)) s)
    as (s' & Hrun & Hw' & Hdraws & Hpos & Hcells); [lia|assumption| |].
  - intros x t Hx Ht. apply populate_step; [|assumption|assumption].
    apply in_bounds_true. lia.
  - exists s'. split; [assumption|]. split; [assumption|].
    split; [assumption|]. split.
    + rewrite Hpos. destruct (rand =? 1); [|reflexivity].
      rewrite draw_index_row by lia. reflexivity.
    + intros a b p Hab Hp.
      assert (before 0 (y + 1) a b ↔ before MAX_Y y a b) as ->.
      { apply in_bounds_true in Hab. unfold before. lia. }
      apply Hcells; assumption.
Qed.

(** [populate] is total on a well-shaped array; it leaves [populated] in
    every cell, keeps the sequence of draws and advances the position in
    it by one per cell when [rand] is 1, not at all otherwise. *)
Lemma populate_cells (world0 : world) (rand : Z) (g0 : rng) :
  well_formed world0 = true →
  ∃ w' g',
    populate world0 rand g0 = Some (w', g')
    ∧ well_formed w' = true
    ∧ draws g' = draws g0
    ∧ pos g' = (pos g0 + (if (rand =? 1)%Z then draw_index 0 MAX_X else 0))%nat
    ∧ ∀ x y prior, in_bounds x y = true → world_get world0 x y = Some prior →
        world_get w' x y = Some (populated rand g0 x y prior).
Proof.
  intros Hwf0. dims. unfold populate.
  destruct (for_range_inv (λ y, populate_inv world0 rand g0 0 y) 0 MAX_X
              (λ y s,
                 for_range 0 MAX_Y (λ x '(world, g),
                   if rand =? 1 then
                     let '(r, g') := weighted_randint DENSITY g in
                     if r =? 1 then
                       world' ← world_set world x y FIRING; Some (world', g')
                     else Some (world, g')
                   else
                     world' ← world_set world x y READY; Some (world', g)) s)
              (world0, g0))
    as ([w' g'] & Hrun & Hw' & Hdraws & Hpos & Hcells); [lia| | |].
  - split; [assumption|]. split; [reflexivity|]. split.
    + cbn [fst snd]. unfold draw_index. destruct (rand =? 1); cbn; lia.
    + intros a b p Hab Hp. cbn [fst snd]. split; [|auto].
      apply in_bounds_true in Hab. unfold before. lia.
  - intros y t Hy Ht. apply populate_row; assumption.
  - exists w', g'. cbn [fst snd] in *. repeat (split; [assumption|]).
    intros x y p Hxy Hp. apply (Hcells x y p Hxy Hp).
    apply in_bounds_true in Hxy. unfold before. lia.
Qed.

(** ** Arrays as tables of their cells *)

Lemma world_get_nat (w : world) (i j : nat) :
  world_get w (Z.of_nat i) (Z.of_nat j) = (col ← w !! i; col !! j).
Proof.
  unfold world_get.
  destruct (Z.leb_spec 0 (Z.of_nat i)); [|lia].
  destruct (Z.leb_spec 0 (Z.of_nat j)); [|lia].
  cbn [andb]. rewrite !Nat2Z.id. reflexivity.
Qed.

Lemma in_bounds_nat (w : world) (i j : nat) col :
  well_formed w = true → w !! i = Some col → (j < length col)%nat →
  in_bounds (Z.of_nat i) (Z.of_nat j) = true.
Proof.
  intros [Hl Hc]%well_formed_iff Hi Hj. apply in_bounds_true.
  specialize (Hc _ _ Hi). apply lookup_lt_Some in Hi. lia.
Qed.

(** Two well-shaped arrays with the same cells are the same array. *)
Lemma world_ext (w1 w2 : world) :
  well_formed w1 = true → well_formed w2 = true →
  (∀ x y, in_bounds x y = true → world_get w1 x y = world_get w2 x y) →
  w1 = w2.
Proof.
  intros Hwf1 Hwf2 Hsame.
  pose proof Hwf1 as [Hl1 Hc1]%well_formed_iff.
  pose proof Hwf2 as [Hl2 Hc2]%well_formed_iff.
  apply list_eq. intros i.
  destruct (w1 !! i) as [col1|] eqn:H1.
  - destruct (lookup_lt_is_Some_2 w2 i) as [col2 H2].
    { apply lookup_lt_Some in H1. lia. }
    rewrite H2. f_equal. apply list_eq. intros j.
    destruct (decide (j < length col1)%nat) as [Hj|Hj].
    + pose proof (Hsame _ _ (in_bounds_nat w1 i j col1 Hwf1 H1 Hj)) as Hij.
      rewrite !world_get_nat, H1, H2 in Hij. exact Hij.
    + pose proof (Hc1 _ _ H1). pose proof (Hc2 _ _ H2).
      rewrite !lookup_ge_None_2 by lia. reflexivity.
  - apply lookup_ge_None in H1. symmetry. apply lookup_ge_None. lia.
Qed.

Lemma uniform_world_well_formed v : well_formed (uniform_world v) = true.
Proof.
  dims. apply well_formed_iff. unfold uniform_world.
  rewrite length_replicate. split; [lia|].
  intros i col [-> _]%lookup_replicate. rewrite length_replicate. lia.
Qed.

Lemma uniform_world_get v x y :
  in_bounds x y = true → world_get (uniform_world v) x y = Some v.
Proof.
  intros [Hx Hy]%in_bounds_true. unfold world_get, uniform_world.
  destruct (Z.leb_spec 0 x); [|lia]. destruct (Z.leb_spec 0 y); [|lia].
  cbn [andb]. rewrite lookup_replicate_2 by lia. cbn.
  apply lookup_replicate_2. lia.
Qed.

Lemma uniform_world_unique (w : world) v :
  well_formed w = true →
  (∀ x y, in_bounds x y = true → world_get w x y = Some v) →
  w = uniform_world v.
Proof.
  intros Hwf Hall. apply world_ext; [assumption| |].
  - apply uniform_world_well_formed.
  - intros x y Hxy. rewrite uniform_world_get by assumption. auto.
Qed.

(** ** Cells after a generation *)

Lemma next_state_three_state cell n : three_state (next_state cell n) = true.
Proof.
  unfold next_state.
  destruct (cell =? READY); [destruct (n =? 2)|destruct (cell =? FIRING)];
    reflexivity.
Qed.

(** Whatever the array held, one generation leaves only the three states. *)
Lemma apply_rules_three_state (w w' : world) x y :
  well_formed w = true → apply_rules w = Some w' → in_bounds x y = true →
  ∃ v, world_get w' x y = Some v ∧ three_state v = true.
Proof.
  intros Hwf Hrun Hxy.
  destruct (well_formed_get w x y Hwf Hxy) as [cell Hcell].
  eexists. split.
  - eapply apply_rules_cell; eassumption.
  - apply next_state_three_state.
Qed.

Lemma generations_total (n : nat) (w : world) :
  well_formed w = true →
  ∃ w', generations n w = Some w' ∧ well_formed w' = true.
Proof.
  revert w. induction n as [|n IH]; intros w Hwf; cbn [generations].
  - eauto.
  - destruct (apply_rules_successor w Hwf) as (w1 & -> & Hw1 & _). cbn.
    apply IH. assumption.
Qed.

(** From the first generation on, every cell holds one of the three states. *)
Lemma generations_three_state (n : nat) (w w' : world) x y :
  well_formed w = true → generations (S n) w = Some w' →
  in_bounds x y = true →
  ∃ v, world_get w' x y = Some v ∧ three_state v = true.
Proof.
  revert w. induction n as [|n IH]; intros w Hwf Hrun Hxy.
  - cbn in Hrun. destruct (apply_rules w) as [w1|] eqn:H1; [|discriminate].
    cbn in Hrun. injection Hrun as <-.
    eapply apply_rules_three_state; eassumption.
  - change (generations (S (S n)) w)
      with (w1 ← apply_rules w; generations (S n) w1) in Hrun.
    destruct (apply_rules_successor w Hwf) as (w1 & H1 & Hw1 & _).
    rewrite H1 in Hrun. cbn [mbind option_bind] in Hrun.
    eapply IH; eassumption.
Qed.

(** Whatever the array held before seeding and however it is seeded, the
    grid of a run holds only the three states once a generation is made. *)
Lemma run_three_state (world0 w : world) (rand : Z) (g0 : rng) (n : nat) x y :
  well_formed world0 = true → run world0 rand g0 (S n) = Some w →
  in_bounds x y = true →
  ∃ v, world_get w x y = Some v ∧ three_state v = true.
Proof.
  intros Hwf0 Hrun Hxy. unfold run in Hrun.
  destruct (populate_cells world0 rand g0 Hwf0)
    as (w1 & g1 & Hseed & Hw1 & _).
  rewrite Hseed in Hrun. cbn [mbind option_bind] in Hrun.
  eapply generations_three_state; eassumption.
Qed.

(** With [rand] equal to 1, a cell of [populate]'s result is [FIRING] when
    its own draw has a last digit above [DENSITY]; otherwise it holds what
    it held before the call. *)
Lemma populate_random_cell (w w' : world) (g g' : rng) x y prior :
  well_formed w = true → populate w 1 g = Some (w', g') →
  world_get w x y = Some prior →
  world_get w' x y
  = Some (seeded (draws g (pos g + draw_index x y)%nat) prior).
Proof.
  intros Hwf Hrun Hprior.
  destruct (populate_cells w 1 g Hwf) as (w1 & g1 & Hrun1 & _ & _ & _ & Hall).
  assert (w1 = w') as -> by congruence.
  apply (Hall x y prior); [|assumption].
  eapply world_get_in_bounds; eassumption.
Qed.

(** A [READY] cell: the centre of its block adds nothing to the count. *)
Lemma apply_rules_ready (w w' : world) x y :
  well_formed w = true → apply_rules w = Some w' →
  world_get w x y = Some READY →
  world_get w' x y
  = Some (if firing_neighbours w x y =? 2 then FIRING else READY).
Proof.
  intros Hwf Hrun Hcell.
  rewrite (apply_rules_cell w w' x y READY Hwf Hrun Hcell).
  rewrite (firing_at_centre w x y READY Hcell) by discriminate.
  rewrite Z.add_0_r. reflexivity.
Qed.

(** One generation from [two_firing]: the two firing cells decay; the
    cells between and beside them, each with both as neighbours, fire. *)
Example two_firing_generation :
  ∃ w', apply_rules two_firing = Some w'
        ∧ world_get w' 1 2 = Some REFRACTORY
        ∧ world_get w' 3 2 = Some REFRACTORY
        ∧ world_get w' 2 2 = Some FIRING
        ∧ world_get w' 2 1 = Some FIRING
        ∧ world_get w' 0 0 = Some READY.
Proof.
  assert (well_formed two_firing = true) as Hwf by (vm_compute; reflexivity).
  destruct (apply_rules_successor two_firing Hwf) as (w' & Hrun & _ & _).
  exists w'. split; [assumption|].
  repeat split;
    (erewrite apply_rules_cell;
     [|exact Hwf|exact Hrun|vm_compute; reflexivity]);
    vm_compute; reflexivity.
Qed.

(** * The claims *)

(** C1 (the code departs from the claim).  Seeding at random an array whose
    cells all hold [REFRACTORY], with a generator whose every draw is 0:
    no draw exceeds [DENSITY], and [populate] writes nothing, so every
    cell still holds [REFRACTORY] where the claim promises [READY]. *)
Theorem populate_random_keeps_prior_value :
  ∃ w' g',
    populate (uniform_world REFRACTORY) 1 (constant_rng 0) = Some (w', g')
    ∧ w' = uniform_world REFRACTORY
    ∧ world_get w' 0 0 = Some REFRACTORY.
Proof.
  destruct (populate_cells (uniform_world REFRACTORY) 1 (constant_rng 0)
              (uniform_world_well_formed _))
    as (w' & g' & Hrun & Hw' & _ & _ & Hall).
  assert (∀ x y, in_bounds x y = true → world_get w' x y = Some REFRACTORY)
    as Hcells.
  { intros x y Hxy.
    rewrite (Hall x y REFRACTORY Hxy (uniform_world_get _ _ _ Hxy)).
    reflexivity. }
  exists w', g'. split; [assumption|]. split.
  - apply uniform_world_unique; assumption.
  - apply Hcells. reflexivity.
Qed.

(** C2.  In a well-shaped array, whatever its cells hold, a cell that is
    [READY] before [apply_rules] is [FIRING] after it exactly when two of
    its in-bounds Moore neighbours were [FIRING] before, and is still
    [READY] otherwise.  [apply_rules] always returns. *)
Theorem ignition_rule (w : world) x y :
  well_formed w = true → world_get w x y = Some READY →
  ∃ w', apply_rules w = Some w'
        ∧ (world_get w' x y = Some FIRING ↔ firing_neighbours w x y = 2)
        ∧ (firing_neighbours w x y ≠ 2 → world_get w' x y = Some READY).
Proof.
  intros Hwf Hcell.
  destruct (apply_rules_successor w Hwf) as (w' & Hrun & _ & _).
  exists w'. split; [assumption|].
  rewrite (apply_rules_ready w w' x y Hwf Hrun Hcell).
  destruct (Z.eqb_spec (firing_neighbours w x y) 2) as [Heq|Hne].
  - split; [tauto|]. intros Hc. contradiction.
  - split; [|reflexivity]. split; [discriminate|]. intros Hc. contradiction.
Qed.

Lemma ignition_rule_witness :
  well_formed two_firing = true ∧ world_get two_firing 2 2 = Some READY
  ∧ ∃ w', apply_rules two_firing = Some w'
          ∧ (world_get w' 2 2 = Some FIRING
             ↔ firing_neighbours two_firing 2 2 = 2)
          ∧ (firing_neighbours two_firing 2 2 ≠ 2
             → world_get w' 2 2 = Some READY).
Proof.
  split; [vm_compute; reflexivity|]. split; [vm_compute; reflexivity|].
  apply (ignition_rule two_firing 2 2); vm_compute; reflexivity.
Defined.

(** C3.  In a well-shaped array a [FIRING] cell is [REFRACTORY] after
    [apply_rules] and a [REFRACTORY] cell is [READY] after it, whatever
    the rest of the array holds.  [apply_rules] always returns. *)
Theorem decay_rule (w : world) x y :
  well_formed w = true → in_bounds x y = true →
  ∃ w', apply_rules w = Some w'
        ∧ (world_get w x y = Some FIRING
           → world_get w' x y = Some REFRACTORY)
        ∧ (world_get w x y = Some REFRACTORY
           → world_get w' x y = Some READY).
Proof.
  intros Hwf Hxy.
  destruct (apply_rules_successor w Hwf) as (w' & Hrun & _ & _).
  exists w'. split; [assumption|].
  split; intros Hcell;
    rewrite (apply_rules_cell w w' x y _ Hwf Hrun Hcell); reflexivity.
Qed.

Lemma decay_rule_witness :
  well_formed two_firing = true ∧ in_bounds 1 2 = true
  ∧ ∃ w', apply_rules two_firing = Some w'
          ∧ (world_get two_firing 1 2 = Some FIRING
             → world_get w' 1 2 = Some REFRACTORY)
          ∧ (world_get two_firing 1 2 = Some REFRACTORY
             → world_get w' 1 2 = Some READY).
Proof.
  split; [vm_compute; reflexivity|]. split; [vm_compute; reflexivity|].
  apply (decay_rule two_firing 1 2); vm_compute; reflexivity.
Defined.

(** C4 (the code departs from the claim).  A run that seeds at random an
    array whose cells all hold 5, with a generator whose every draw is 0,
    and makes no generation yet: the grid of the run holds 5, which is
    none of the three states. *)
Theorem run_seeded_grid_foreign_value :
  ∃ w, run (uniform_world 5) 1 (constant_rng 0) 0 = Some w
       ∧ world_get w 0 0 = Some 5
       ∧ three_state 5 = false.
Proof.
  destruct (populate_cells (uniform_world 5) 1 (constant_rng 0)
              (uniform_world_well_formed _))
    as (w' & g' & Hrun & _ & _ & _ & Hall).
  exists w'. unfold run. rewrite Hrun. cbn [mbind option_bind generations].
  split; [reflexivity|].
  split; [|reflexivity].
  rewrite (Hall 0 0 5); [reflexivity|reflexivity|].
  apply uniform_world_get. reflexivity.
Qed.

(** C6.  The corner (0,0) has exactly three in-bounds Moore neighbours,
    (1,0), (0,1) and (1,1).  [count_neighbours] at the corner returns the
    number of those three that are [FIRING], the positions outside the
    array adding nothing, and a [READY] corner is [FIRING] after
    [apply_rules] exactly when that number is 2. *)
Theorem corner_rule (w : world) :
  well_formed w = true → world_get w 0 0 = Some READY →
  moore_neighbours 0 0 = [(1, 0); (0, 1); (1, 1)]
  ∧ count_neighbours w 0 0
    = Some (Z.of_nat (length (List.filter (is_firing w)
                                [(1, 0); (0, 1); (1, 1)])))
  ∧ ∃ w', apply_rules w = Some w'
          ∧ (world_get w' 0 0 = Some FIRING
             ↔ Z.of_nat (length (List.filter (is_firing w)
                                   [(1, 0); (0, 1); (1, 1)])) = 2).
Proof.
  intros Hwf Hcell.
  assert (moore_neighbours 0 0 = [(1, 0); (0, 1); (1, 1)]) as Hmoore
    by reflexivity.
  assert (firing_neighbours w 0 0
          = Z.of_nat (length (List.filter (is_firing w)
                                [(1, 0); (0, 1); (1, 1)]))) as Hcount.
  { unfold firing_neighbours. rewrite Hmoore. reflexivity. }
  split; [exact Hmoore|]. split.
  - rewrite count_neighbours_moore by (assumption || reflexivity).
    rewrite (firing_at_centre w 0 0 READY Hcell) by discriminate.
    rewrite Z.add_0_r, Hcount. reflexivity.
  - destruct (apply_rules_successor w Hwf) as (w' & Hrun & _ & _).
    exists w'. split; [assumption|].
    rewrite (apply_rules_ready w w' 0 0 Hwf Hrun Hcell), <- Hcount.
    destruct (Z.eqb_spec (firing_neighbours w 0 0) 2) as [Heq|Hne].
    + tauto.
    + split; [discriminate|]. intros Hc. contradiction.
Qed.

Lemma corner_rule_witness :
  well_formed corner_world = true ∧ world_get corner_world 0 0 = Some READY
  ∧ moore_neighbours 0 0 = [(1, 0); (0, 1); (1, 1)]
  ∧ count_neighbours corner_world 0 0
    = Some (Z.of_nat (length (List.filter (is_firing corner_world)
                                [(1, 0); (0, 1); (1, 1)])))
  ∧ ∃ w', apply_rules corner_world = Some w'
          ∧ (world_get w' 0 0 = Some FIRING
             ↔ Z.of_nat (length (List.filter (is_firing corner_world)
                                   [(1, 0); (0, 1); (1, 1)])) = 2).
Proof.
  split; [vm_compute; reflexivity|]. split; [vm_compute; reflexivity|].
  apply (corner_rule corner_world); vm_compute; reflexivity.
Defined.

(** C7.  For a cell that is not [FIRING], the count [count_neighbours]
    makes over the whole 3x3 block, centre included, is the number of
    firing cells among the in-bounds Moore neighbours, centre excluded. *)
Theorem centre_not_counted (w : world) x y cell :
  well_formed w = true → world_get w x y = Some cell → cell ≠ FIRING →
  count_neighbours w x y = Some (firing_neighbours w x y).
Proof.
  intros Hwf Hcell Hne.
  rewrite count_neighbours_moore;
    [|assumption|eapply world_get_in_bounds; eassumption].
  rewrite (firing_at_centre w x y cell Hcell Hne), Z.add_0_r. reflexivity.
Qed.

Lemma centre_not_counted_witness :
  well_formed two_firing = true ∧ world_get two_firing 2 2 = Some READY
  ∧ READY ≠ FIRING
  ∧ count_neighbours two_firing 2 2 = Some (firing_neighbours two_firing 2 2).
Proof.
  split; [vm_compute; reflexivity|]. split; [vm_compute; reflexivity|].
  split; [discriminate|].
  apply (centre_not_counted two_firing 2 2 READY);
    [vm_compute; reflexivity|vm_compute; reflexivity|discriminate].
Defined.

(** C8.  With [rand] different from 1 ([false] is 0), [populate] turns any
    well-shaped array into the array whose cells are all [READY], and
    leaves the random source as it found it: no draw is made. *)
Theorem populate_all_ready (w : world) (rand : Z) (g : rng) :
  well_formed w = true → rand ≠ 1 →
  populate w rand g = Some (uniform_world READY, g).
Proof.
  intros Hwf Hrand.
  destruct (populate_cells w rand g Hwf)
    as (w' & g' & Hrun & Hw' & Hdraws & Hpos & Hall).
  unfold populated in Hall.
  rewrite (proj2 (Z.eqb_neq rand 1) Hrand) in Hpos, Hall.
  rewrite Hrun. f_equal. f_equal.
  - apply uniform_world_unique; [assumption|].
    intros x y Hxy. destruct (well_formed_get w x y Hwf Hxy) as [prior Hp].
    apply (Hall x y prior Hxy Hp).
  - destruct g', g. cbn [draws pos] in *. subst.
    rewrite Nat.add_0_r. reflexivity.
Qed.

Lemma populate_all_ready_witness :
  well_formed (uniform_world 5) = true ∧ 0 ≠ 1
  ∧ populate (uniform_world 5) 0 (constant_rng 9)
    = Some (uniform_world READY, constant_rng 9).
Proof.
  split; [vm_compute; reflexivity|]. split; [lia|].
  apply (populate_all_ready (uniform_world 5) 0 (constant_rng 9));
    [vm_compute; reflexivity|lia].
Defined.

(** [memcpy] over the whole of two arrays of the shape of [world] leaves
    the destination equal to the source, whatever it held. *)
Lemma memcpy_cells_whole (dst src : world) :
  well_formed dst = true → well_formed src = true →
  memcpy_cells dst src (MAX_X * MAX_Y) = Some src.
Proof.
  intros Hdst Hsrc. dims. unfold memcpy_cells.
  destruct (for_range_inv
              (λ k d, well_formed d = true
                      ∧ ∀ a b, in_bounds a b = true → a * MAX_Y + b < k →
                               world_get d a b = world_get src a b)
              0 (MAX_X * MAX_Y)
              (λ k d, v ← world_get src (k / MAX_Y) (k mod MAX_Y);
                      world_set d (k / MAX_Y) (k mod MAX_Y) v) dst)
    as (d & Hrun & Hd & Hcells); [nia| | |].
  - split; [assumption|]. intros a b [Ha Hb]%in_bounds_true Hlt. nia.
  - intros k d Hk [Hd Hcells].
    assert (0 ≤ k mod MAX_Y < MAX_Y) as Hy by (apply Z.mod_pos_bound; lia).
    assert (0 ≤ k / MAX_Y < MAX_X) as Hx.
    { split; [apply Z.div_pos; lia|].
      apply Z.div_lt_upper_bound; [lia|nia]. }
    assert (in_bounds (k / MAX_Y) (k mod MAX_Y) = true) as Hin
      by (apply in_bounds_true; lia).
    destruct (well_formed_get src _ _ Hsrc Hin) as [v Hv].
    rewrite Hv. cbn [mbind option_bind].
    destruct (world_set_spec d _ _ v Hd Hin) as (d' & -> & Hd' & Hnew & Hframe).
    exists d'. split; [reflexivity|]. split; [assumption|].
    intros a b Hab Hlt. pose proof Hab as [Ha Hb]%in_bounds_true.
    destruct (decide (a * MAX_Y + b = k)) as [Heq|Hne].
    + assert (a = k / MAX_Y) as ->
        by (apply (Z.div_unique k MAX_Y a b); lia).
      assert (b = k mod MAX_Y) as ->
        by (apply (Z.mod_unique k MAX_Y (k / MAX_Y) b); lia).
      congruence.
    + rewrite Hframe.
      * apply Hcells; [assumption|lia].
      * intros [= -> ->]. apply Hne.
        pose proof (Z.div_mod k MAX_Y). lia.
  - rewrite Hrun. f_equal. apply world_ext; [assumption|assumption|].
    intros x y Hxy. apply Hcells; [assumption|].
    apply in_bounds_true in Hxy. nia.
Qed.

(** On the memory, [apply_rules] changes the array as [apply_rules] says,
    leaves a copy of the old array in the slot of [temp], and leaves the
    state of [rand()] alone. *)
Lemma apply_rules_in_memory (m : memory) :
  well_formed (mem_world m) = true → well_formed (mem_temp m) = true →
  ∃ w', apply_rules (mem_world m) = Some w'
        ∧ apply_rules_in m
          = Some {| mem_world := w'; mem_temp := mem_world m;
                    mem_rand := mem_rand m |}.
Proof.
  intros Hw Ht.
  destruct (apply_rules_successor _ Hw) as (w' & Hrun & _ & _).
  exists w'. split; [assumption|].
  unfold apply_rules_in. rewrite (memcpy_cells_whole _ _ Ht Hw).
  cbn [mbind option_bind].
  unfold apply_rules in Hrun. cbv zeta in Hrun. rewrite Hrun. reflexivity.
Qed.

(** C9.  [apply_rules] run twice, on two memories whose arrays hold the
    same cells but whose stack slot for [temp] and whose state of [rand()]
    may differ in any way: both runs return, they leave the same array,
    the one [apply_rules] computes from the cells, and each leaves the
    state of [rand()] as it found it.  The result is decided by the grid
    alone. *)
Theorem apply_rules_reads_only_the_grid (m1 m2 : memory) :
  well_formed (mem_world m1) = true → well_formed (mem_world m2) = true →
  well_formed (mem_temp m1) = true → well_formed (mem_temp m2) = true →
  (∀ x y, in_bounds x y = true →
          world_get (mem_world m1) x y = world_get (mem_world m2) x y) →
  ∃ m1' m2',
    apply_rules_in m1 = Some m1' ∧ apply_rules_in m2 = Some m2'
    ∧ mem_world m1' = mem_world m2'
    ∧ apply_rules (mem_world m1) = Some (mem_world m1')
    ∧ mem_rand m1' = mem_rand m1 ∧ mem_rand m2' = mem_rand m2.
Proof.
  intros Hw1 Hw2 Ht1 Ht2 Hsame.
  destruct (apply_rules_in_memory m1 Hw1 Ht1) as (w1' & Hrun1 & Hin1).
  destruct (apply_rules_in_memory m2 Hw2 Ht2) as (w2' & Hrun2 & Hin2).
  rewrite <- (world_ext _ _ Hw1 Hw2 Hsame) in Hrun2.
  assert (w2' = w1') as -> by congruence.
  eexists _, _. split; [exact Hin1|]. split; [exact Hin2|].
  cbn [mem_world mem_rand]. auto.
Qed.

Lemma apply_rules_reads_only_the_grid_witness :
  well_formed two_firing = true
  ∧ well_formed (put (put (uniform_world READY) 3 2 FIRING) 1 2 FIRING) = true
  ∧ well_formed (uniform_world 5) = true
  ∧ well_formed (uniform_world FIRING) = true
  ∧ ∃ m1' m2',
      apply_rules_in {| mem_world := two_firing;
                        mem_temp := uniform_world 5;
                        mem_rand := constant_rng 0 |} = Some m1'
      ∧ apply_rules_in
          {| mem_world :=
               put (put (uniform_world READY) 3 2 FIRING) 1 2 FIRING;
             mem_temp := uniform_world FIRING;
             mem_rand := spiked_rng 7 |} = Some m2'
      ∧ mem_world m1' = mem_world m2'
      ∧ apply_rules two_firing = Some (mem_world m1')
      ∧ mem_rand m1' = constant_rng 0 ∧ mem_rand m2' = spiked_rng 7.
Proof.
  split; [vm_compute; reflexivity|]. split; [vm_compute; reflexivity|].
  split; [vm_compute; reflexivity|]. split; [vm_compute; reflexivity|].
  apply (apply_rules_reads_only_the_grid
           {| mem_world := two_firing; mem_temp := uniform_world 5;
              mem_rand := constant_rng 0 |}
           {| mem_world :=
                put (put (uniform_world READY) 3 2 FIRING) 1 2 FIRING;
              mem_temp := uniform_world FIRING;
              mem_rand := spiked_rng 7 |});
    [vm_compute; reflexivity|vm_compute; reflexivity
    |vm_compute; reflexivity|vm_compute; reflexivity|].
  intros x y _. cbn [mem_world].
  assert (two_firing = put (put (uniform_world READY) 3 2 FIRING) 1 2 FIRING)
    as <- by (vm_compute; reflexivity).
  reflexivity.
Defined.

(** C10.  At every position of a well-shaped array [count_neighbours]
    returns a count: none of its reads falls outside the array, no
    addition overflows, and the count lies between 0 and 9. *)
Theorem count_neighbours_safe (w : world) x y :
  well_formed w = true → 0 ≤ x < MAX_X → 0 ≤ y < MAX_Y →
  ∃ count, count_neighbours w x y = Some count ∧ 0 ≤ count ≤ 9.
Proof.
  intros Hwf Hx Hy. dims.
  rewrite count_neighbours_tally by (assumption || lia).
  eexists. split; [reflexivity|].
  pose proof (tally_range w (block x y)) as Hrange.
  change (length (block x y)) with 9%nat in Hrange. lia.
Qed.

Lemma count_neighbours_safe_witness :
  well_formed two_firing = true ∧ 0 ≤ 0 < MAX_X ∧ 0 ≤ 299 < MAX_Y
  ∧ ∃ count, count_neighbours two_firing 0 299 = Some count ∧ 0 ≤ count ≤ 9.
Proof.
  split; [vm_compute; reflexivity|].
  split; [unfold MAX_X; lia|]. split; [unfold MAX_Y; lia|].
  apply (count_neighbours_safe two_firing 0 299);
    [vm_compute; reflexivity|unfold MAX_X; lia|unfold MAX_Y; lia].
Defined.

(** ** The array read as a grid of three-state cells *)

Lemma mapM_lookup {A B : Type} (f : A → option B) (l : list A) (k : list B)
    (i : nat) :
  mapM f l = Some k → k !! i = (l !! i) ≫= f.
Proof.
  intros Hall%mapM_Some.
  destruct (l !! i) as [a|] eqn:Hi; cbn.
  - destruct (Forall2_lookup_l _ _ _ _ _ Hall Hi) as (b & Hk & Hb).
    rewrite Hk. symmetry. exact Hb.
  - apply Forall2_length in Hall. apply lookup_ge_None in Hi.
    apply lookup_ge_None. lia.
Qed.

Lemma decode_world_get (w : world) (g : Simultaneous.grid) x y :
  Simultaneous.decode_world w = Some g →
  Simultaneous.get g x y = world_get w x y ≫= Simultaneous.decode.
Proof.
  intros Hg. unfold Simultaneous.get, world_get.
  destruct ((0 <=? x) && (0 <=? y)); [|reflexivity].
  rewrite (mapM_lookup _ _ _ (Z.to_nat x) Hg).
  destruct (w !! Z.to_nat x) as [col|] eqn:Hx; [|reflexivity].
  destruct (Forall2_lookup_l _ _ _ _ _ (mapM_Some_1 _ _ _ Hg) Hx)
    as (gcol & _ & Hcol).
  cbn. rewrite Hcol. cbn. apply mapM_lookup. assumption.
Qed.

Lemma decode_cases v c :
  Simultaneous.decode v = Some c →
  (v = READY ∧ c = Simultaneous.Ready)
  ∨ (v = REFRACTORY ∧ c = Simultaneous.Refractory)
  ∨ (v = FIRING ∧ c = Simultaneous.Firing).
Proof.
  unfold Simultaneous.decode.
  destruct (Z.eqb_spec v READY); [intros [= <-]; auto|].
  destruct (Z.eqb_spec v REFRACTORY); [intros [= <-]; auto|].
  destruct (Z.eqb_spec v FIRING); [intros [= <-]; auto|discriminate].
Qed.

Lemma fires_is_firing (w : world) (g : Simultaneous.grid) p :
  Simultaneous.decode_world w = Some g →
  Simultaneous.fires g p = is_firing w p.
Proof.
  intros Hg. unfold Simultaneous.fires, is_firing.
  rewrite (decode_world_get w g _ _ Hg).
  destruct (world_get w p.1 p.2) as [v|]; [|reflexivity]. cbn.
  destruct (Simultaneous.decode v) as [c|] eqn:Hc.
  - destruct (decode_cases v c Hc) as [[-> ->]|[[-> ->]|[-> ->]]]; reflexivity.
  - unfold Simultaneous.decode in Hc.
    destruct (v =? READY); [discriminate|].
    destruct (v =? REFRACTORY); [discriminate|].
    destruct (v =? FIRING); [discriminate|reflexivity].
Qed.

Lemma count_firing_neighbors_decode (w : world) (g : Simultaneous.grid) x y :
  Simultaneous.decode_world w = Some g →
  Simultaneous.count_firing_neighbors g x y = firing_neighbours w x y.
Proof.
  intros Hg. unfold Simultaneous.count_firing_neighbors, firing_neighbours.
  do 2 f_equal. apply List.filter_ext. intros p.
  apply fires_is_firing. assumption.
Qed.

Lemma decode_next_state (w : world) x y v c :
  world_get w x y = Some v → Simultaneous.decode v = Some c →
  Simultaneous.decode
    (next_state v (firing_neighbours w x y + firing_at w (x, y)))
  = Some (Simultaneous.transition c (firing_neighbours w x y)).
Proof.
  intros Hv Hc.
  destruct (decode_cases v c Hc) as [[-> ->]|[[-> ->]|[-> ->]]];
    try reflexivity.
  rewrite (firing_at_centre w x y READY Hv) by discriminate.
  rewrite Z.add_0_r. unfold next_state, Simultaneous.transition.
  change (READY =? READY) with true. cbv iota.
  destruct (firing_neighbours w x y =? 2); reflexivity.
Qed.

(** C5.  On an array whose cells hold the three states, [apply_rules]
    returns, and the grid it leaves is the one the simultaneous
    computation yields: every cell's successor decided from the grid
    before the generation alone.  [Simultaneous.advance] maps all cells at
    once, so no order of iteration enters the result. *)
Theorem apply_rules_simultaneous (w : world) (g : Simultaneous.grid) :
  well_formed w = true → Simultaneous.decode_world w = Some g →
  ∃ w', apply_rules w = Some w'
        ∧ Simultaneous.decode_world w' = Some (Simultaneous.advance g).
Proof.
  intros Hwf Hg.
  destruct (apply_rules_successor w Hwf) as (w' & Hrun & Hwf' & Hall).
  exists w'. split; [assumption|].
  pose proof Hwf as [Hl Hc]%well_formed_iff.
  pose proof Hwf' as [Hl' Hc']%well_formed_iff.
  pose proof (mapM_Some_1 _ _ _ Hg) as Hcols.
  apply mapM_Some_2, Forall2_same_length_lookup_2.
  { unfold Simultaneous.advance. rewrite length_imap.
    rewrite <- (Forall2_length _ _ _ Hcols). lia. }
  intros i col' gcol' Hi' Hgi'.
  unfold Simultaneous.advance in Hgi'. rewrite list_lookup_imap in Hgi'.
  destruct (g !! i) as [gcol|] eqn:Hgi; [|discriminate].
  injection Hgi' as <-.
  destruct (Forall2_lookup_r _ _ _ _ _ Hcols Hgi) as (col & Hi & Hcol).
  apply mapM_Some_2, Forall2_same_length_lookup_2.
  { rewrite length_imap, <- (length_mapM _ _ _ Hcol).
    specialize (Hc _ _ Hi). specialize (Hc' _ _ Hi'). lia. }
  intros j v' c' Hj' Hcj'.
  rewrite list_lookup_imap in Hcj'.
  destruct (gcol !! j) as [c|] eqn:Hcj; [|discriminate].
  injection Hcj' as <-.
  destruct (Forall2_lookup_r _ _ _ _ _ (mapM_Some_1 _ _ _ Hcol) Hcj)
    as (v & Hj & Hv).
  assert (world_get w (Z.of_nat i) (Z.of_nat j) = Some v) as Hget.
  { rewrite world_get_nat, Hi. exact Hj. }
  assert (world_get w' (Z.of_nat i) (Z.of_nat j) = Some v') as Hget'.
  { rewrite world_get_nat, Hi'. exact Hj'. }
  rewrite (apply_rules_cell w w' _ _ v Hwf Hrun Hget) in Hget'.
  injection Hget' as <-.
  rewrite (count_firing_neighbors_decode w g _ _ Hg).
  apply decode_next_state; assumption.
Qed.

Lemma apply_rules_simultaneous_witness :
  well_formed two_firing = true
  ∧ Simultaneous.decode_world two_firing = Some two_firing_grid
  ∧ ∃ w', apply_rules two_firing = Some w'
          ∧ Simultaneous.decode_world w'
            = Some (Simultaneous.advance two_firing_grid).
Proof.
  split; [vm_compute; reflexivity|]. split; [vm_compute; reflexivity|].
  apply (apply_rules_simultaneous two_firing two_firing_grid);
    vm_compute; reflexivity.
Defined.

(** * Further properties of the source *)

(** ** Generations *)

(** X1.  Any number of generations can be run from a well-shaped array:
    no read or write leaves the array, no addition overflows, and the
    array keeps its shape. *)
Theorem generations_safe (n : nat) (w : world) :
  well_formed w = true →
  ∃ w', generations n w = Some w' ∧ well_formed w' = true.
Proof.
  revert w. induction n as [|n IH]; intros w Hwf.
  - exists w. split; [reflexivity|assumption].
  - destruct (apply_rules_successor w Hwf) as (w1 & Hrun & Hw1 & _).
    destruct (IH w1 Hw1) as (w' & Hgen & Hw').
    exists w'. split; [|assumption].
    cbn [generations]. rewrite Hrun. exact Hgen.
Qed.

Lemma generations_safe_witness :
  well_formed two_firing = true
  ∧ ∃ w', generations 3 two_firing = Some w' ∧ well_formed w' = true.
Proof.
  split; [vm_compute; reflexivity|].
  apply (generations_safe 3 two_firing). vm_compute. reflexivity.
Defined.

(** X2.  A cell holding anything but [READY] and [FIRING], [REFRACTORY] or
    a value that is no state at all, is [READY] after [apply_rules]. *)
Theorem other_values_become_ready (w : world) x y v :
  well_formed w = true → world_get w x y = Some v →
  v ≠ READY → v ≠ FIRING →
  ∃ w', apply_rules w = Some w' ∧ world_get w' x y = Some READY.
Proof.
  intros Hwf Hcell Hready Hfiring.
  destruct (apply_rules_successor w Hwf) as (w' & Hrun & _ & _).
  exists w'. split; [assumption|].
  rewrite (apply_rules_cell w w' x y v Hwf Hrun Hcell). unfold next_state.
  rewrite (proj2 (Z.eqb_neq v READY) Hready).
  rewrite (proj2 (Z.eqb_neq v FIRING) Hfiring). reflexivity.
Qed.

Lemma other_values_become_ready_witness :
  well_formed (uniform_world 5) = true
  ∧ world_get (uniform_world 5) 7 9 = Some 5 ∧ 5 ≠ READY ∧ 5 ≠ FIRING
  ∧ ∃ w', apply_rules (uniform_world 5) = Some w'
          ∧ world_get w' 7 9 = Some READY.
Proof.
  split; [vm_compute; reflexivity|]. split; [vm_compute; reflexivity|].
  split; [discriminate|]. split; [discriminate|].
  apply (other_values_become_ready (uniform_world 5) 7 9 5);
    [vm_compute; reflexivity|vm_compute; reflexivity
    |discriminate|discriminate].
Defined.

(** X3.  After [apply_rules] the [REFRACTORY] cells are exactly the cells
    that were [FIRING] before it. *)
Theorem refractory_iff_was_firing (w : world) x y :
  well_formed w = true → in_bounds x y = true →
  ∃ w', apply_rules w = Some w'
        ∧ (world_get w' x y = Some REFRACTORY
           ↔ world_get w x y = Some FIRING).
Proof.
  intros Hwf Hxy.
  destruct (apply_rules_successor w Hwf) as (w' & Hrun & _ & _).
  exists w'. split; [assumption|].
  destruct (well_formed_get w x y Hwf Hxy) as [v Hv].
  rewrite (apply_rules_cell w w' x y v Hwf Hrun Hv), Hv. unfold next_state.
  destruct (Z.eqb_spec v READY) as [->|Hready].
  - destruct (_ =? 2); split; discriminate.
  - destruct (Z.eqb_spec v FIRING) as [->|Hfiring].
    + split; reflexivity.
    + split; [discriminate|]. intros [= ->]. contradiction.
Qed.

Lemma refractory_iff_was_firing_witness :
  well_formed two_firing = true ∧ in_bounds 3 2 = true
  ∧ ∃ w', apply_rules two_firing = Some w'
          ∧ (world_get w' 3 2 = Some REFRACTORY
             ↔ world_get two_firing 3 2 = Some FIRING).
Proof.
  split; [vm_compute; reflexivity|]. split; [vm_compute; reflexivity|].
  apply (refractory_iff_was_firing two_firing 3 2); vm_compute; reflexivity.
Defined.

(** X4.  After [apply_rules] the [FIRING] cells are exactly the cells that
    were [READY] with two firing in-bounds Moore neighbours: nothing else
    ignites, and no cell stays [FIRING]. *)
Theorem firing_iff_ignited (w : world) x y :
  well_formed w = true → in_bounds x y = true →
  ∃ w', apply_rules w = Some w'
        ∧ (world_get w' x y = Some FIRING
           ↔ world_get w x y = Some READY ∧ firing_neighbours w x y = 2).
Proof.
  intros Hwf Hxy.
  destruct (apply_rules_successor w Hwf) as (w' & Hrun & _ & _).
  exists w'. split; [assumption|].
  destruct (well_formed_get w x y Hwf Hxy) as [v Hv].
  destruct (Z.eqb_spec v READY) as [->|Hready].
  - rewrite (apply_rules_ready w w' x y Hwf Hrun Hv), Hv.
    destruct (Z.eqb_spec (firing_neighbours w x y) 2) as [Heq|Hne].
    + tauto.
    + split; [discriminate|]. intros [_ Hc]. contradiction.
  - rewrite (apply_rules_cell w w' x y v Hwf Hrun Hv), Hv. unfold next_state.
    rewrite (proj2 (Z.eqb_neq v READY) Hready).
    split.
    + destruct (v =? FIRING); discriminate.
    + intros [[= ->] _]. contradiction.
Qed.

Lemma firing_iff_ignited_witness :
  well_formed two_firing = true ∧ in_bounds 2 1 = true
  ∧ ∃ w', apply_rules two_firing = Some w'
          ∧ (world_get w' 2 1 = Some FIRING
             ↔ world_get two_firing 2 1 = Some READY
               ∧ firing_neighbours two_firing 2 1 = 2).
Proof.
  split; [vm_compute; reflexivity|]. split; [vm_compute; reflexivity|].
  apply (firing_iff_ignited two_firing 2 1); vm_compute; reflexivity.
Defined.

(** X5.  A [FIRING] cell is [REFRACTORY] one generation later and [READY]
    two generations later, whatever happens around it: a cell fires at
    most once in three generations. *)
Theorem firing_cell_rests (w : world) x y :
  well_formed w = true → world_get w x y = Some FIRING →
  ∃ w1 w2, generations 1 w = Some w1 ∧ generations 2 w = Some w2
           ∧ world_get w1 x y = Some REFRACTORY
           ∧ world_get w2 x y = Some READY.
Proof.
  intros Hwf Hcell.
  destruct (apply_rules_successor w Hwf) as (w1 & Hrun1 & Hw1 & _).
  destruct (apply_rules_successor w1 Hw1) as (w2 & Hrun2 & _ & _).
  pose proof (apply_rules_cell w w1 x y FIRING Hwf Hrun1 Hcell) as H1.
  change (next_state FIRING _) with REFRACTORY in H1.
  pose proof (apply_rules_cell w1 w2 x y REFRACTORY Hw1 Hrun2 H1) as H2.
  change (next_state REFRACTORY _) with READY in H2.
  exists w1, w2. cbn [generations]. rewrite Hrun1. cbn [mbind option_bind].
  rewrite Hrun2. cbn [mbind option_bind]. auto.
Qed.

Lemma firing_cell_rests_witness :
  well_formed two_firing = true ∧ world_get two_firing 1 2 = Some FIRING
  ∧ ∃ w1 w2, generations 1 two_firing = Some w1
             ∧ generations 2 two_firing = Some w2
             ∧ world_get w1 1 2 = Some REFRACTORY
             ∧ world_get w2 1 2 = Some READY.
Proof.
  split; [vm_compute; reflexivity|]. split; [vm_compute; reflexivity|].
  apply (firing_cell_rests two_firing 1 2); vm_compute; reflexivity.
Defined.

Lemma tally_ext (w1 w2 : world) (l : list (Z * Z)) :
  Forall (λ p, firing_at w1 p = firing_at w2 p) l → tally w1 l = tally w2 l.
Proof.
  unfold tally. induction 1 as [|p l Hp _ IH]; cbn [foldr]; [reflexivity|].
  rewrite Hp, IH. reflexivity.
Qed.

Lemma tally_none (w : world) (l : list (Z * Z)) :
  (∀ x y, world_get w x y ≠ Some FIRING) → tally w l = 0.
Proof.
  intros Hnone. unfold tally.
  induction l as [|[a b] l IH]; cbn [foldr]; [reflexivity|].
  rewrite IH, Z.add_0_r. unfold firing_at. cbn [fst snd].
  destruct (in_bounds a b); [|reflexivity].
  destruct (world_get w a b) as [c|] eqn:Hc; [|reflexivity].
  destruct (Z.eqb_spec c FIRING) as [->|]; [|reflexivity].
  exfalso. apply (Hnone a b). assumption.
Qed.

Lemma apply_rules_no_firing (w : world) :
  well_formed w = true →
  (∀ x y, world_get w x y ≠ Some FIRING) →
  apply_rules w = Some (uniform_world READY).
Proof.
  intros Hwf Hnone.
  destruct (apply_rules_successor w Hwf) as (w' & Hrun & Hw' & _).
  rewrite Hrun. f_equal.
  apply uniform_world_unique; [assumption|].
  intros x y Hxy. destruct (well_formed_get w x y Hwf Hxy) as [v Hv].
  rewrite (apply_rules_cell w w' x y v Hwf Hrun Hv).
  rewrite firing_neighbours_tally, (tally_none w _ Hnone).
  assert (v ≠ FIRING) as Hv' by (intros ->; apply (Hnone x y); assumption).
  rewrite (firing_at_centre w x y v Hv Hv').
  unfold next_state. destruct (v =? READY); [reflexivity|].
  rewrite (proj2 (Z.eqb_neq v FIRING) Hv'). reflexivity.
Qed.

Lemma uniform_world_cells v x y c :
  world_get (uniform_world v) x y = Some c → c = v.
Proof.
  intros Hc.
  pose proof (world_get_in_bounds _ _ _ _ (uniform_world_well_formed v) Hc)
    as Hxy.
  rewrite (uniform_world_get v x y Hxy) in Hc. congruence.
Qed.

(** X6.  An array without a [FIRING] cell is all [READY] after one
    generation and stays so for ever: the automaton has died out. *)
Theorem no_firing_dies_out (w : world) (n : nat) :
  well_formed w = true →
  (∀ x y, world_get w x y ≠ Some FIRING) →
  generations (S n) w = Some (uniform_world READY).
Proof.
  revert w. induction n as [|n IH]; intros w Hwf Hnone.
  - cbn [generations]. rewrite (apply_rules_no_firing w Hwf Hnone).
    reflexivity.
  - change (generations (S (S n)) w)
      with (w1 ← apply_rules w; generations (S n) w1).
    rewrite (apply_rules_no_firing w Hwf Hnone). cbn [mbind option_bind].
    apply IH; [apply uniform_world_well_formed|].
    intros x y Hc. apply uniform_world_cells in Hc. discriminate.
Qed.

Lemma no_firing_dies_out_witness :
  well_formed (uniform_world REFRACTORY) = true
  ∧ generations 4 (uniform_world REFRACTORY) = Some (uniform_world READY).
Proof.
  split; [vm_compute; reflexivity|].
  apply (no_firing_dies_out (uniform_world REFRACTORY) 3);
    [vm_compute; reflexivity|].
  intros x y Hc. apply uniform_world_cells in Hc. discriminate.
Defined.

(** X7.  The state of a cell after [apply_rules] depends on the 3x3 block
    around it only: two arrays that agree on the block give the cell the
    same state. *)
Theorem apply_rules_local (w1 w2 : world) x y :
  well_formed w1 = true → well_formed w2 = true → in_bounds x y = true →
  (∀ a b, x - 1 ≤ a ≤ x + 1 → y - 1 ≤ b ≤ y + 1 →
          world_get w1 a b = world_get w2 a b) →
  ∃ w1' w2', apply_rules w1 = Some w1' ∧ apply_rules w2 = Some w2'
             ∧ world_get w1' x y = world_get w2' x y.
Proof.
  intros Hwf1 Hwf2 Hxy Hsame.
  destruct (apply_rules_successor w1 Hwf1) as (w1' & Hrun1 & _ & _).
  destruct (apply_rules_successor w2 Hwf2) as (w2' & Hrun2 & _ & _).
  exists w1', w2'. split; [assumption|]. split; [assumption|].
  destruct (well_formed_get w1 x y Hwf1 Hxy) as [v Hv1].
  assert (world_get w2 x y = Some v) as Hv2
    by (rewrite <- Hsame by lia; assumption).
  rewrite (apply_rules_cell w1 w1' x y v Hwf1 Hrun1 Hv1).
  rewrite (apply_rules_cell w2 w2' x y v Hwf2 Hrun2 Hv2).
  rewrite !firing_neighbours_tally, <- !tally_block.
  do 2 f_equal. apply tally_ext.
  unfold block.
  repeat (apply Forall_cons; split;
            [unfold firing_at; cbn [fst snd]; rewrite Hsame by lia;
             reflexivity|]).
  apply Forall_nil_2.
Qed.

Lemma apply_rules_local_witness :
  well_formed two_firing = true
  ∧ well_formed (put two_firing 200 200 FIRING) = true
  ∧ in_bounds 2 2 = true
  ∧ ∃ w1' w2', apply_rules two_firing = Some w1'
               ∧ apply_rules (put two_firing 200 200 FIRING) = Some w2'
               ∧ world_get w1' 2 2 = world_get w2' 2 2.
Proof.
  split; [vm_compute; reflexivity|]. split; [vm_compute; reflexivity|].
  split; [vm_compute; reflexivity|].
  apply (apply_rules_local two_firing (put two_firing 200 200 FIRING) 2 2);
    [vm_compute; reflexivity|vm_compute; reflexivity|vm_compute; reflexivity|].
  intros a b Ha Hb. unfold put.
  destruct (world_set_spec two_firing 200 200 FIRING)
    as (w' & -> & _ & _ & Hframe);
    [vm_compute; reflexivity|vm_compute; reflexivity|].
  cbn [default]. symmetry. apply Hframe. intros [= -> ->]. lia.
Defined.

(** ** count_neighbours *)

(** X8.  At any position whose neighbours are representable, inside the
    grid or not, [count_neighbours] returns the number of [FIRING] cells
    among the positions of the 3x3 block that lie inside the array: the
    guard keeps every read inside, and the centre is one of the nine. *)
Theorem count_neighbours_block (w : world) x y :
  well_formed w = true →
  INT_MIN < x < INT_MAX → INT_MIN < y < INT_MAX →
  count_neighbours w x y
  = Some (Z.of_nat (length (List.filter (is_firing w)
                              (List.filter (λ p, in_bounds p.1 p.2)
                                 (block x y))))).
Proof.
  intros Hwf Hx Hy.
  rewrite count_neighbours_tally by assumption.
  rewrite tally_filter. reflexivity.
Qed.

Lemma count_neighbours_block_witness :
  well_formed two_firing = true
  ∧ INT_MIN < -1 < INT_MAX ∧ INT_MIN < 300 < INT_MAX
  ∧ count_neighbours two_firing (-1) 300
    = Some (Z.of_nat (length (List.filter (is_firing two_firing)
                                (List.filter (λ p, in_bounds p.1 p.2)
                                   (block (-1) 300))))).
Proof.
  split; [vm_compute; reflexivity|].
  split; [unfold INT_MIN, INT_MAX; lia|].
  split; [unfold INT_MIN, INT_MAX; lia|].
  apply (count_neighbours_block two_firing (-1) 300);
    [vm_compute; reflexivity
    |unfold INT_MIN, INT_MAX; lia|unfold INT_MIN, INT_MAX; lia].
Defined.

(** X9.  For a [FIRING] cell [count_neighbours] counts the cell itself: the
    result is one more than the number of its firing Moore neighbours. *)
Theorem firing_centre_counted (w : world) x y :
  well_formed w = true → world_get w x y = Some FIRING →
  count_neighbours w x y = Some (firing_neighbours w x y + 1).
Proof.
  intros Hwf Hcell.
  pose proof (world_get_in_bounds w x y FIRING Hwf Hcell) as Hxy.
  rewrite count_neighbours_moore by assumption.
  unfold firing_at. cbn [fst snd]. rewrite Hxy, Hcell. reflexivity.
Qed.

Lemma firing_centre_counted_witness :
  well_formed two_firing = true ∧ world_get two_firing 1 2 = Some FIRING
  ∧ count_neighbours two_firing 1 2
    = Some (firing_neighbours two_firing 1 2 + 1).
Proof.
  split; [vm_compute; reflexivity|]. split; [vm_compute; reflexivity|].
  apply (firing_centre_counted two_firing 1 2); vm_compute; reflexivity.
Defined.

(** ** The random choices *)

Lemma rem_10_range r : -9 ≤ Z.rem r 10 ≤ 9.
Proof.
  pose proof (Z.rem_bound_abs r 10). lia.
Qed.

(** X10.  [weighted_randint] answers 0 or 1, and a larger weight never
    turns a 0 into a 1: on the same draw, the answer for the larger weight
    is at most the answer for the smaller one. *)
Theorem weighted_randint_antitone (weight1 weight2 : Z) (g : rng) :
  weight1 ≤ weight2 →
  0 ≤ (weighted_randint weight2 g).1 ≤ (weighted_randint weight1 g).1 ≤ 1.
Proof.
  intros Hle. unfold weighted_randint, rand. cbn [fst].
  destruct (Z.ltb_spec weight2 (Z.rem (draws g (pos g)) 10));
    destruct (Z.ltb_spec weight1 (Z.rem (draws g (pos g)) 10)); lia.
Qed.

Lemma weighted_randint_antitone_witness :
  3 ≤ DENSITY
  ∧ 0 ≤ (weighted_randint DENSITY (constant_rng 5)).1
      ≤ (weighted_randint 3 (constant_rng 5)).1 ≤ 1.
Proof.
  split; [unfold DENSITY; lia|].
  apply (weighted_randint_antitone 3 DENSITY (constant_rng 5)).
  unfold DENSITY. lia.
Defined.

(** X11.  With a weight of 9 or more [weighted_randint] never answers 1,
    whatever the draw; with a negative weight it always answers 1 on the
    draws [rand()] can return (they are not negative).  Either way one
    draw is used. *)
Theorem weighted_randint_extremes (weight : Z) (g : rng) :
  (9 ≤ weight → (weighted_randint weight g).1 = 0)
  ∧ (weight < 0 → 0 ≤ draws g (pos g) → (weighted_randint weight g).1 = 1)
  ∧ pos (weighted_randint weight g).2 = S (pos g)
  ∧ draws (weighted_randint weight g).2 = draws g.
Proof.
  unfold weighted_randint, rand. cbn [fst snd pos draws].
  pose proof (rem_10_range (draws g (pos g))) as Hrange.
  repeat split.
  - intros Hw. destruct (Z.ltb_spec weight (Z.rem (draws g (pos g)) 10));
      [lia|reflexivity].
  - intros Hw Hr. pose proof (Z.rem_nonneg (draws g (pos g)) 10).
    destruct (Z.ltb_spec weight (Z.rem (draws g (pos g)) 10));
      [reflexivity|lia].
Qed.

(** X12.  On the draws [rand()] can return, [randint] answers 0 or 1, the
    parity of the draw, and uses one draw. *)
Theorem randint_bit (g : rng) :
  0 ≤ draws g (pos g) →
  ((randint g).1 = 0 ∨ (randint g).1 = 1)
  ∧ (randint g).1 = draws g (pos g) mod 2
  ∧ pos (randint g).2 = S (pos g)
  ∧ draws (randint g).2 = draws g.
Proof.
  intros Hr. unfold randint, rand. cbn [fst snd pos draws].
  rewrite Z.rem_mod_nonneg by lia.
  pose proof (Z.mod_pos_bound (draws g (pos g)) 2). repeat split. lia.
Qed.

Lemma randint_bit_witness :
  0 ≤ draws (constant_rng 7) (pos (constant_rng 7))
  ∧ ((randint (constant_rng 7)).1 = 0 ∨ (randint (constant_rng 7)).1 = 1)
  ∧ (randint (constant_rng 7)).1
    = draws (constant_rng 7) (pos (constant_rng 7)) mod 2
  ∧ pos (randint (constant_rng 7)).2 = S (pos (constant_rng 7))
  ∧ draws (randint (constant_rng 7)).2 = draws (constant_rng 7).
Proof.
  split; [cbn; lia|].
  apply (randint_bit (constant_rng 7)). cbn. lia.
Defined.

(** ** populate *)

Lemma all_three_state_iff (w : world) :
  all_three_state w = true
  ↔ ∀ x y v, world_get w x y = Some v → three_state v = true.
Proof.
  unfold all_three_state. rewrite forallb_forall. split.
  - intros Hall x y v. unfold world_get.
    destruct ((0 <=? x) && (0 <=? y)); [|discriminate].
    destruct (w !! Z.to_nat x) as [col|] eqn:Hcol; [|discriminate]. cbn.
    intros Hv.
    assert (forallb three_state col = true) as Hc.
    { apply Hall, list_elem_of_In. eapply list_elem_of_lookup_2; eassumption. }
    rewrite forallb_forall in Hc.
    apply Hc, list_elem_of_In. eapply list_elem_of_lookup_2; eassumption.
  - intros Hall col Hin. apply forallb_forall. intros v Hv.
    apply list_elem_of_In, list_elem_of_lookup_1 in Hin as [i Hi].
    apply list_elem_of_In, list_elem_of_lookup_1 in Hv as [j Hj].
    apply (Hall (Z.of_nat i) (Z.of_nat j)).
    rewrite world_get_nat, Hi. exact Hj.
Qed.

(** X13.  Seeding at random calls [rand()] once per cell, [MAX_X * MAX_Y]
    times in all, whatever the draws are. *)
Theorem populate_draws_used (w : world) (g : rng) :
  well_formed w = true →
  ∃ w' g', populate w 1 g = Some (w', g')
           ∧ draws g' = draws g
           ∧ pos g' = (pos g + Z.to_nat (MAX_X * MAX_Y))%nat.
Proof.
  intros Hwf.
  destruct (populate_cells w 1 g Hwf) as (w' & g' & Hrun & _ & Hd & Hp & _).
  exists w', g'. split; [assumption|]. split; [assumption|].
  rewrite Hp. change (1 =? 1) with true. cbv iota. unfold draw_index.
  rewrite Z.add_0_r. reflexivity.
Qed.

Lemma populate_draws_used_witness :
  well_formed (uniform_world READY) = true
  ∧ ∃ w' g', populate (uniform_world READY) 1 (constant_rng 8) = Some (w', g')
             ∧ draws g' = draws (constant_rng 8)
             ∧ pos g'
               = (pos (constant_rng 8) + Z.to_nat (MAX_X * MAX_Y))%nat.
Proof.
  split; [vm_compute; reflexivity|].
  apply (populate_draws_used (uniform_world READY) (constant_rng 8)).
  vm_compute. reflexivity.
Defined.

(** X14.  Seeding at random decides the cell at [(x, y)] by the draw
    number [y * MAX_Y + x] counted from the call: the cell is [FIRING]
    when the last digit of that draw exceeds [DENSITY], and otherwise
    holds what it held before the call. *)
Theorem populate_cell_by_own_draw (w : world) (g : rng) x y prior :
  well_formed w = true → world_get w x y = Some prior →
  ∃ w' g', populate w 1 g = Some (w', g')
           ∧ world_get w' x y
             = Some (if DENSITY
                        <? Z.rem (draws g (pos g + Z.to_nat (y * MAX_Y + x))%nat)
                             10
                     then FIRING else prior).
Proof.
  intros Hwf Hprior.
  destruct (populate_cells w 1 g Hwf) as (w' & g' & Hrun & _ & _ & _ & Hall).
  exists w', g'. split; [assumption|].
  apply (Hall x y prior); [|assumption].
  eapply world_get_in_bounds; eassumption.
Qed.

Lemma populate_cell_by_own_draw_witness :
  well_formed (uniform_world 5) = true
  ∧ world_get (uniform_world 5) 4 1 = Some 5
  ∧ ∃ w' g', populate (uniform_world 5) 1 (constant_rng 19) = Some (w', g')
             ∧ world_get w' 4 1
               = Some (if DENSITY
                          <? Z.rem (draws (constant_rng 19)
                                      (pos (constant_rng 19)
                                       + Z.to_nat (1 * MAX_Y + 4))%nat) 10
                       then FIRING else 5).
Proof.
  split; [vm_compute; reflexivity|]. split; [vm_compute; reflexivity|].
  apply (populate_cell_by_own_draw (uniform_world 5) (constant_rng 19) 4 1 5);
    vm_compute; reflexivity.
Defined.

Lemma draw_index_inj x y x' y' :
  in_bounds x y = true → in_bounds x' y' = true →
  draw_index x y = draw_index x' y' → x = x' ∧ y = y'.
Proof.
  intros [Hx Hy]%in_bounds_true [Hx' Hy']%in_bounds_true. dims.
  unfold draw_index. intros Heq.
  assert (y * MAX_Y + x = y' * MAX_Y + x') as Hz by nia.
  assert (y = y') as -> by nia.
  split; [lia|reflexivity].
Qed.

(** X15.  One draw, one cell: two random seedings of the same array whose
    generators differ in nothing but the draw of cell [(x, y)] give arrays
    that differ in nothing but that cell. *)
Theorem populate_one_draw_one_cell (w : world) (g h : rng) x y :
  well_formed w = true → in_bounds x y = true →
  pos g = pos h →
  (∀ n, n ≠ (pos g + draw_index x y)%nat → draws g n = draws h n) →
  ∃ wg g' wh h',
    populate w 1 g = Some (wg, g') ∧ populate w 1 h = Some (wh, h')
    ∧ ∀ a b, (a, b) ≠ (x, y) → world_get wg a b = world_get wh a b.
Proof.
  intros Hwf Hxy Hpos Hdraws.
  destruct (populate_cells w 1 g Hwf) as (wg & g' & Hg & Hwg & _ & _ & Hcg).
  destruct (populate_cells w 1 h Hwf) as (wh & h' & Hh & Hwh & _ & _ & Hch).
  exists wg, g', wh, h'. split; [assumption|]. split; [assumption|].
  intros a b Hne.
  destruct (in_bounds a b) eqn:Hab.
  - destruct (well_formed_get w a b Hwf Hab) as [prior Hprior].
    rewrite (Hcg a b prior Hab Hprior), (Hch a b prior Hab Hprior).
    unfold populated. change (1 =? 1) with true. cbv iota.
    rewrite <- Hpos, Hdraws; [reflexivity|].
    intros Hidx. apply Hne.
    destruct (draw_index_inj a b x y Hab Hxy) as [-> ->]; [lia|reflexivity].
  - destruct (world_get wg a b) as [vg|] eqn:Hvg.
    { apply (world_get_in_bounds wg a b vg Hwg) in Hvg. congruence. }
    destruct (world_get wh a b) as [vh|] eqn:Hvh; [|reflexivity].
    apply (world_get_in_bounds wh a b vh Hwh) in Hvh. congruence.
Qed.

Lemma populate_one_draw_one_cell_witness :
  well_formed (uniform_world READY) = true ∧ in_bounds 4 1 = true
  ∧ pos (constant_rng 0) = pos (spiked_rng 304)
  ∧ ∃ wg g' wh h',
      populate (uniform_world READY) 1 (constant_rng 0) = Some (wg, g')
      ∧ populate (uniform_world READY) 1 (spiked_rng 304) = Some (wh, h')
      ∧ ∀ a b, (a, b) ≠ (4, 1) → world_get wg a b = world_get wh a b.
Proof.
  split; [vm_compute; reflexivity|]. split; [vm_compute; reflexivity|].
  split; [reflexivity|].
  apply (populate_one_draw_one_cell (uniform_world READY)
           (constant_rng 0) (spiked_rng 304) 4 1);
    [vm_compute; reflexivity|vm_compute; reflexivity|reflexivity|].
  intros n Hn. change (pos (constant_rng 0) + draw_index 4 1)%nat
    with 304%nat in Hn.
  cbn [draws constant_rng spiked_rng].
  destruct (Nat.eqb_spec n 304); [contradiction|reflexivity].
Defined.

(** X16.  Seeding, at random or not, never brings a value that is not a
    state into an array that has none. *)
Theorem populate_keeps_three_state (w : world) (rand : Z) (g : rng) :
  well_formed w = true → all_three_state w = true →
  ∃ w' g', populate w rand g = Some (w', g') ∧ all_three_state w' = true.
Proof.
  intros Hwf Hall.
  destruct (populate_cells w rand g Hwf)
    as (w' & g' & Hrun & Hw' & _ & _ & Hcells).
  exists w', g'. split; [assumption|].
  apply all_three_state_iff. intros x y v Hv.
  pose proof (world_get_in_bounds w' x y v Hw' Hv) as Hxy.
  destruct (well_formed_get w x y Hwf Hxy) as [prior Hprior].
  rewrite (Hcells x y prior Hxy Hprior) in Hv. injection Hv as <-.
  unfold populated, seeded. destruct (rand =? 1); [|reflexivity].
  destruct (DENSITY <? _); [reflexivity|].
  eapply all_three_state_iff; eassumption.
Qed.

Lemma populate_keeps_three_state_witness :
  well_formed two_firing = true ∧ all_three_state two_firing = true
  ∧ ∃ w' g', populate two_firing 1 (constant_rng 8) = Some (w', g')
             ∧ all_three_state w' = true.
Proof.
  split; [vm_compute; reflexivity|]. split; [vm_compute; reflexivity|].
  apply (populate_keeps_three_state two_firing 1 (constant_rng 8));
    vm_compute; reflexivity.
Defined.

(** ** Loops that only append to an output *)

Lemma seqZ_snoc_bind {A : Type} (f : Z → list A) (n : Z) :
  0 ≤ n → seqZ 0 (n + 1) ≫= f = (seqZ 0 n ≫= f) ++ f n.
Proof.
  intros Hn. rewrite seqZ_app by lia. rewrite bind_app. f_equal.
  rewrite Z.add_0_l, seqZ_cons by lia. rewrite seqZ_nil by lia.
  apply bind_singleton.
Qed.

Lemma for_range_emit {A : Type} (f : Z → list A)
    (body : Z → list A → option (list A)) (hi : Z) (out : list A) :
  0 ≤ hi →
  (∀ i o, 0 ≤ i < hi → body i o = Some (o ++ f i)) →
  for_range 0 hi body out = Some (out ++ (seqZ 0 hi ≫= f)).
Proof.
  intros Hhi Hbody.
  destruct (for_range_inv (λ i o, o = out ++ (seqZ 0 i ≫= f)) 0 hi body out)
    as (o & -> & ->); [assumption| | |reflexivity].
  - rewrite seqZ_nil by lia. cbn. rewrite app_nil_r. reflexivity.
  - intros i o Hi ->. eexists. split; [apply Hbody; assumption|].
    rewrite seqZ_snoc_bind by lia. rewrite app_assoc. reflexivity.
Qed.

Lemma length_bind_block {A B : Type} (f : A → list B) (n : nat) (l : list A) :
  (∀ a, a ∈ l → length (f a) = n) → length (l ≫= f) = (length l * n)%nat.
Proof.
  induction l as [|a l IH]; intros Hlen; [reflexivity|].
  rewrite bind_cons, length_app, IH, Hlen; cbn [length].
  - lia.
  - left.
  - intros b Hb. apply Hlen. right. assumption.
Qed.

Lemma lookup_bind_block {A B : Type} (f : A → list B) (n : nat) (l : list A)
    (i j : nat) (a : A) :
  (∀ b, b ∈ l → length (f b) = n) → l !! i = Some a → (j < n)%nat →
  (l ≫= f) !! (i * n + j)%nat = f a !! j.
Proof.
  revert i. induction l as [|a0 l IH]; intros i Hlen Hi Hj; [discriminate|].
  rewrite bind_cons.
  assert (length (f a0) = n) as Hn by (apply Hlen; left).
  destruct i as [|i].
  - injection Hi as ->. apply lookup_app_l. cbn. lia.
  - rewrite lookup_app_r by (cbn; lia).
    replace (S i * n + j - length (f a0))%nat with (i * n + j)%nat
      by (cbn; lia).
    apply IH; [|exact Hi|exact Hj].
    intros b Hb. apply Hlen. right. assumption.
Qed.

Lemma cell_at_get (w : world) x y v :
  world_get w x y = Some v → cell_at w x y = v.
Proof. intros Hv. unfold cell_at. rewrite Hv. reflexivity. Qed.

(** ** print_world *)

Lemma print_world_text (w : world) (out : list ascii) :
  well_formed w = true → print_world w out = Some (out ++ world_text w).
Proof.
  intros Hwf. dims. unfold print_world.
  rewrite (for_range_emit (row_text w)); [|lia|].
  - cbn [mbind option_bind]. unfold world_text.
    rewrite app_assoc. reflexivity.
  - intros y o Hy.
    rewrite (for_range_emit
               (λ x, [glyph (cell_at w x y); " "%char])); [|lia|].
    + cbn [mbind option_bind]. unfold row_text.
      rewrite app_assoc. reflexivity.
    + intros x o' Hx.
      destruct (well_formed_get w x y Hwf) as [v Hv];
        [apply in_bounds_true; lia|].
      rewrite Hv, (cell_at_get w x y v Hv). cbn [mbind option_bind].
      unfold glyph. destruct (v =? FIRING); reflexivity.
Qed.

Lemma length_row_text (w : world) y :
  length (row_text w y) = Z.to_nat (2 * MAX_Y + 1).
Proof.
  dims. unfold row_text.
  rewrite length_app, (length_bind_block _ 2), length_seqZ by reflexivity.
  cbn [length]. lia.
Qed.

Lemma length_world_text (w : world) :
  Z.of_nat (length (world_text w)) = MAX_X * (2 * MAX_Y + 1) + 1.
Proof.
  dims. unfold world_text.
  rewrite length_app,
    (length_bind_block _ (Z.to_nat (2 * MAX_Y + 1))), length_seqZ
    by (intros; apply length_row_text).
  cbn [length]. nia.
Qed.

(** The character of cell [(x, y)] and the space after it. *)
Lemma world_text_lookup (w : world) x y (j : nat) :
  in_bounds x y = true → (j < 2)%nat →
  world_text w !! (Z.to_nat (y * (2 * MAX_Y + 1) + 2 * x) + j)%nat
  = [glyph (cell_at w x y); " "%char] !! j.
Proof.
  intros [Hx Hy]%in_bounds_true Hj. dims. unfold world_text.
  assert (length (seqZ 0 MAX_X ≫= row_text w)
          = (Z.to_nat MAX_X * Z.to_nat (2 * MAX_Y + 1))%nat) as Hlen.
  { rewrite (length_bind_block _ (Z.to_nat (2 * MAX_Y + 1))), length_seqZ
      by (intros; apply length_row_text). reflexivity. }
  rewrite lookup_app_l by (rewrite Hlen; nia).
  replace (Z.to_nat (y * (2 * MAX_Y + 1) + 2 * x) + j)%nat
    with (Z.to_nat y * Z.to_nat (2 * MAX_Y + 1) + (Z.to_nat x * 2 + j))%nat
    by nia.
  rewrite (lookup_bind_block _ (Z.to_nat (2 * MAX_Y + 1)) _ _ _ y);
    [|intros; apply length_row_text
     |rewrite lookup_seqZ_lt by lia; f_equal; lia
     |lia].
  unfold row_text.
  assert (length (seqZ 0 MAX_Y ≫= λ x0, [glyph (cell_at w x0 y); " "%char])
          = (Z.to_nat MAX_Y * 2)%nat) as Hrow.
  { rewrite (length_bind_block _ 2), length_seqZ by reflexivity.
    reflexivity. }
  rewrite lookup_app_l by (rewrite Hrow; lia).
  rewrite (lookup_bind_block _ 2 _ _ _ x);
    [reflexivity|reflexivity
    |rewrite lookup_seqZ_lt by lia; f_equal; lia|assumption].
Qed.

Lemma world_text_newline (w : world) y :
  0 ≤ y < MAX_X →
  world_text w !! Z.to_nat (y * (2 * MAX_Y + 1) + 2 * MAX_Y) = Some newline.
Proof.
  intros Hy. dims. unfold world_text.
  assert (length (seqZ 0 MAX_X ≫= row_text w)
          = (Z.to_nat MAX_X * Z.to_nat (2 * MAX_Y + 1))%nat) as Hlen.
  { rewrite (length_bind_block _ (Z.to_nat (2 * MAX_Y + 1))), length_seqZ
      by (intros; apply length_row_text). reflexivity. }
  rewrite lookup_app_l by (rewrite Hlen; nia).
  replace (Z.to_nat (y * (2 * MAX_Y + 1) + 2 * MAX_Y))
    with (Z.to_nat y * Z.to_nat (2 * MAX_Y + 1) + Z.to_nat MAX_Y * 2)%nat
    by nia.
  rewrite (lookup_bind_block _ (Z.to_nat (2 * MAX_Y + 1)) _ _ _ y);
    [|intros; apply length_row_text
     |rewrite lookup_seqZ_lt by lia; f_equal; lia
     |lia].
  unfold row_text.
  assert (length (seqZ 0 MAX_Y ≫= λ x0, [glyph (cell_at w x0 y); " "%char])
          = (Z.to_nat MAX_Y * 2)%nat) as Hrow.
  { rewrite (length_bind_block _ 2), length_seqZ by reflexivity.
    reflexivity. }
  rewrite lookup_app_r by (rewrite Hrow; lia).
  rewrite Hrow, Nat.sub_diag. reflexivity.
Qed.

(** X17.  [print_world] keeps what was written before it and appends
    [MAX_X * (2 * MAX_Y + 1) + 1] characters, whatever the array holds. *)
Theorem print_world_appends (w : world) (out : list ascii) :
  well_formed w = true →
  ∃ text, print_world w out = Some (out ++ text)
          ∧ Z.of_nat (length text) = MAX_X * (2 * MAX_Y + 1) + 1.
Proof.
  intros Hwf. exists (world_text w).
  split; [apply print_world_text; assumption|apply length_world_text].
Qed.

Lemma print_world_appends_witness :
  well_formed two_firing = true
  ∧ ∃ text, print_world two_firing [] = Some ([] ++ text)
            ∧ Z.of_nat (length text) = MAX_X * (2 * MAX_Y + 1) + 1.
Proof.
  split; [vm_compute; reflexivity|].
  apply (print_world_appends two_firing []). vm_compute. reflexivity.
Defined.

(** X18.  The layout of the printout: line [y] holds the cells
    [world[0][y]], [world[1][y]], ...; the cell at [(x, y)] is the
    character at offset [y * (2 * MAX_Y + 1) + 2 * x], an at sign for
    [FIRING], a star for [REFRACTORY] and a backquote for anything else,
    a space follows it, and a newline ends the line. *)
Theorem print_world_layout (w : world) (out : list ascii) x y v :
  well_formed w = true → world_get w x y = Some v →
  ∃ text,
    print_world w out = Some (out ++ text)
    ∧ text !! Z.to_nat (y * (2 * MAX_Y + 1) + 2 * x)
      = Some (if v =? FIRING then "@"%char
              else if v =? REFRACTORY then "*"%char else "`"%char)
    ∧ text !! Z.to_nat (y * (2 * MAX_Y + 1) + 2 * x + 1) = Some " "%char
    ∧ text !! Z.to_nat (y * (2 * MAX_Y + 1) + 2 * MAX_Y) = Some newline.
Proof.
  intros Hwf Hv.
  pose proof (world_get_in_bounds w x y v Hwf Hv) as Hxy.
  pose proof Hxy as [Hx Hy]%in_bounds_true. dims.
  exists (world_text w). split; [apply print_world_text; assumption|].
  pose proof (world_text_lookup w x y 0 Hxy) as Hchar.
  pose proof (world_text_lookup w x y 1 Hxy) as Hspace.
  rewrite (cell_at_get w x y v Hv) in Hchar.
  rewrite Nat.add_0_r in Hchar. split; [apply Hchar; lia|]. split.
  - replace (Z.to_nat (y * (2 * MAX_Y + 1) + 2 * x + 1))
      with (Z.to_nat (y * (2 * MAX_Y + 1) + 2 * x) + 1)%nat by nia.
    apply Hspace. lia.
  - apply world_text_newline. lia.
Qed.

Lemma print_world_layout_witness :
  well_formed two_firing = true ∧ world_get two_firing 3 2 = Some FIRING
  ∧ ∃ text,
      print_world two_firing [] = Some ([] ++ text)
      ∧ text !! Z.to_nat (2 * (2 * MAX_Y + 1) + 2 * 3)
        = Some (if FIRING =? FIRING then "@"%char
                else if FIRING =? REFRACTORY then "*"%char else "`"%char)
      ∧ text !! Z.to_nat (2 * (2 * MAX_Y + 1) + 2 * 3 + 1) = Some " "%char
      ∧ text !! Z.to_nat (2 * (2 * MAX_Y + 1) + 2 * MAX_Y) = Some newline.
Proof.
  split; [vm_compute; reflexivity|]. split; [vm_compute; reflexivity|].
  apply (print_world_layout two_firing [] 3 2 FIRING);
    vm_compute; reflexivity.
Defined.

Lemma glyph_three_state (v1 v2 : Z) :
  three_state v1 = true → three_state v2 = true →
  glyph v1 = glyph v2 → v1 = v2.
Proof.
  unfold three_state, glyph. rewrite !orb_true_iff, !Z.eqb_eq.
  intros [[->| ->]| ->] [[->| ->]| ->]; cbn; congruence.
Qed.

(** X19.  The printout tells apart any two arrays that hold only the
    three states: equal printouts, equal arrays. *)
Theorem print_world_injective (w1 w2 : world) (out : list ascii) :
  well_formed w1 = true → well_formed w2 = true →
  all_three_state w1 = true → all_three_state w2 = true →
  print_world w1 out = print_world w2 out → w1 = w2.
Proof.
  intros Hwf1 Hwf2 Hs1 Hs2 Hprint.
  rewrite !print_world_text in Hprint by assumption.
  apply (inj Some), app_inv_head in Hprint. rename Hprint into Htext.
  apply world_ext; [assumption|assumption|].
  intros x y Hxy.
  destruct (well_formed_get w1 x y Hwf1 Hxy) as [v1 Hv1].
  destruct (well_formed_get w2 x y Hwf2 Hxy) as [v2 Hv2].
  rewrite Hv1, Hv2. f_equal.
  apply glyph_three_state.
  - exact (proj1 (all_three_state_iff w1) Hs1 x y v1 Hv1).
  - exact (proj1 (all_three_state_iff w2) Hs2 x y v2 Hv2).
  - pose proof (world_text_lookup w1 x y 0 Hxy ltac:(lia)) as H1.
    pose proof (world_text_lookup w2 x y 0 Hxy ltac:(lia)) as H2.
    rewrite Htext, H2 in H1.
    rewrite (cell_at_get w1 x y v1 Hv1), (cell_at_get w2 x y v2 Hv2) in H1.
    cbn [lookup list_lookup] in H1. congruence.
Qed.

Lemma print_world_injective_witness :
  well_formed two_firing = true
  ∧ well_formed (put (put (uniform_world READY) 3 2 FIRING) 1 2 FIRING) = true
  ∧ all_three_state two_firing = true
  ∧ all_three_state (put (put (uniform_world READY) 3 2 FIRING) 1 2 FIRING)
    = true
  ∧ two_firing = put (put (uniform_world READY) 3 2 FIRING) 1 2 FIRING.
Proof.
  assert (two_firing = put (put (uniform_world READY) 3 2 FIRING) 1 2 FIRING)
    as Heq by (vm_compute; reflexivity).
  split; [vm_compute; reflexivity|]. split; [vm_compute; reflexivity|].
  split; [vm_compute; reflexivity|]. split; [vm_compute; reflexivity|].
  apply (print_world_injective two_firing
           (put (put (uniform_world READY) 3 2 FIRING) 1 2 FIRING) []);
    [vm_compute; reflexivity|vm_compute; reflexivity
    |vm_compute; reflexivity|vm_compute; reflexivity|].
  rewrite <- Heq. reflexivity.
Defined.

(** ** draw_world_rects *)

Lemma int_mul_small a b :
  INT_MIN ≤ a * b ≤ INT_MAX → int_mul a b = Some (a * b).
Proof.
  intros H. unfold int_mul. cbv zeta.
  destruct (Z.leb_spec INT_MIN (a * b)); [|lia].
  destruct (Z.leb_spec (a * b) INT_MAX); [reflexivity|lia].
Qed.

Lemma int_sub_small a b :
  INT_MIN ≤ a - b ≤ INT_MAX → int_sub a b = Some (a - b).
Proof.
  intros H. unfold int_sub. cbv zeta.
  destruct (Z.leb_spec INT_MIN (a - b)); [|lia].
  destruct (Z.leb_spec (a - b) INT_MAX); [reflexivity|lia].
Qed.

Lemma to_Sint16_small v : -32768 ≤ v ≤ 32767 → to_Sint16 v = v.
Proof. intros Hv. unfold to_Sint16. rewrite Z.mod_small by lia. lia. Qed.

Lemma to_Uint16_small v : 0 ≤ v < 65536 → to_Uint16 v = v.
Proof. intros Hv. unfold to_Uint16. apply Z.mod_small. assumption. Qed.

Lemma draw_world_rects_calls (w : world) (cellsize linew : Z)
    (calls : list SDL_call) :
  well_formed w = true →
  Z.abs cellsize * MAX_X ≤ INT_MAX →
  INT_MIN ≤ cellsize - linew ≤ INT_MAX →
  draw_world_rects w cellsize linew calls
  = Some (calls ++ world_calls w cellsize linew).
Proof.
  intros Hwf Hsize Hline. dims. unfold draw_world_rects. cbv zeta.
  apply (for_range_emit
           (λ y, seqZ 0 MAX_X ≫= λ x, cell_calls w cellsize linew x y));
    [lia|].
  intros y o Hy.
  apply (for_range_emit (λ x, cell_calls w cellsize linew x y)); [lia|].
  intros x o' Hx.
  rewrite (int_mul_small x cellsize), (int_mul_small y cellsize) by nia.
  rewrite !int_sub_small by assumption. cbn [mbind option_bind].
  destruct (well_formed_get w x y Hwf) as [v Hv]; [apply in_bounds_true; lia|].
  unfold cell_calls. rewrite Hv, (cell_at_get w x y v Hv).
  cbn [mbind option_bind].
  destruct (v =? FIRING); [reflexivity|].
  destruct (v =? REFRACTORY); [reflexivity|].
  rewrite app_nil_r. reflexivity.
Qed.

Lemma world_calls_elem (w : world) (cellsize linew : Z) (c : SDL_call) :
  well_formed w = true →
  c ∈ world_calls w cellsize linew
  ↔ ∃ x y v,
      world_get w x y = Some v
      ∧ ((v = FIRING
          ∧ c = FillRect (Some (cell_rect cellsize linew x y))
                  (MapRGB 0 255 0))
         ∨ (v = REFRACTORY
            ∧ c = FillRect (Some (cell_rect cellsize linew x y))
                    (MapRGB 0 0 255))).
Proof.
  intros Hwf. dims. unfold world_calls. rewrite list_elem_of_bind. split.
  - intros (y & Hc & Hy%elem_of_seqZ).
    apply list_elem_of_bind in Hc as (x & Hc & Hx%elem_of_seqZ).
    destruct (well_formed_get w x y Hwf) as [v Hv];
      [apply in_bounds_true; lia|].
    exists x, y, v. split; [assumption|].
    unfold cell_calls in Hc. rewrite (cell_at_get w x y v Hv) in Hc.
    destruct (v =? FIRING) eqn:Hf.
    + left. apply Z.eqb_eq in Hf. apply list_elem_of_singleton in Hc. auto.
    + destruct (v =? REFRACTORY) eqn:Hr.
      * right. apply Z.eqb_eq in Hr. apply list_elem_of_singleton in Hc. auto.
      * apply elem_of_nil in Hc. contradiction.
  - intros (x & y & v & Hv & Hc).
    pose proof (world_get_in_bounds w x y v Hwf Hv) as [Hx Hy]%in_bounds_true.
    exists y. split; [|apply elem_of_seqZ; lia].
    apply list_elem_of_bind. exists x. split; [|apply elem_of_seqZ; lia].
    unfold cell_calls. rewrite (cell_at_get w x y v Hv).
    destruct Hc as [[-> ->]|[-> ->]]; cbn; left.
Qed.

(** Every position of the array comes once in the order of the visit. *)
Lemma draw_order_elem x y : (x, y) ∈ draw_order ↔ in_bounds x y = true.
Proof.
  unfold draw_order. rewrite list_elem_of_bind, in_bounds_true. split.
  - intros (b & Hin & Hb%elem_of_seqZ).
    apply list_elem_of_fmap in Hin as (a & [= -> ->] & Ha%elem_of_seqZ). lia.
  - intros [Hx Hy]. exists y. split; [|apply elem_of_seqZ; lia].
    apply list_elem_of_fmap. exists x. split; [reflexivity|].
    apply elem_of_seqZ. lia.
Qed.

Lemma draw_order_NoDup : NoDup draw_order.
Proof.
  unfold draw_order. apply NoDup_bind; [| |apply NoDup_seqZ].
  - intros y1 y2 p _ _ (a1 & -> & _)%list_elem_of_fmap
      (a2 & [= _ ->] & _)%list_elem_of_fmap. reflexivity.
  - intros y _. apply NoDup_fmap_2_strong; [|apply NoDup_seqZ].
    intros a1 a2 _ _ [= ->]. reflexivity.
Qed.

Lemma NoDup_List_filter {A : Type} (f : A → bool) (l : list A) :
  NoDup l → NoDup (List.filter f l).
Proof.
  induction 1 as [|a l Ha Hl IH]; cbn [List.filter]; [constructor|].
  destruct (f a); [|assumption].
  constructor; [|assumption].
  intros Hin%list_elem_of_In%filter_In. apply Ha, list_elem_of_In. tauto.
Qed.

Lemma bind_cases {A B : Type} (P : A → bool) (f : A → B) (g : A → list B)
    (l : list A) :
  (∀ a, g a = if P a then [f a] else []) → l ≫= g = f <$> List.filter P l.
Proof.
  intros Hg. induction l as [|a l IH]; [reflexivity|].
  rewrite bind_cons, IH, Hg. cbn [List.filter].
  destruct (P a); reflexivity.
Qed.

Lemma bind_bind {A B C : Type} (f : A → list B) (g : B → list C)
    (l : list A) :
  (l ≫= f) ≫= g = l ≫= λ a, f a ≫= g.
Proof.
  induction l as [|a l IH]; [reflexivity|].
  rewrite !bind_cons, bind_app, IH. reflexivity.
Qed.

Lemma world_calls_drawn (w : world) (cellsize linew : Z) :
  world_calls w cellsize linew = drawn_calls w cellsize linew.
Proof.
  unfold drawn_calls.
  rewrite <- (bind_cases _ _
                (λ p, cell_calls w cellsize linew p.1 p.2)).
  - unfold draw_order, world_calls. rewrite bind_bind.
    apply list_bind_ext; [|reflexivity]. intros y.
    rewrite list_fmap_bind. reflexivity.
  - intros [x y]. unfold cell_calls, cell_call, drawn_state. cbn [fst snd].
    destruct (cell_at w x y =? FIRING); [reflexivity|].
    destruct (cell_at w x y =? REFRACTORY); reflexivity.
Qed.



Lemma cell_rect_covers (cellsize linew x y px py : Z) :
  0 < cellsize → 0 ≤ linew ≤ cellsize → cellsize * MAX_X ≤ 32767 →
  in_bounds x y = true →
  covers (cell_rect cellsize linew x y) px py →
  x * cellsize ≤ px < x * cellsize + (cellsize - linew)
  ∧ y * cellsize ≤ py < y * cellsize + (cellsize - linew).
Proof.
  intros Hsize Hline Hmax [Hx Hy]%in_bounds_true. dims.
  unfold covers, cell_rect. cbn [rect_x rect_y rect_w rect_h].
  rewrite !to_Sint16_small, !to_Uint16_small by nia. tauto.
Qed.

(** The call at a place of the list of drawn calls is the call of a
    position of the array, the one at that place among the drawn ones. *)
Lemma drawn_calls_lookup (w : world) (cellsize linew : Z) (i : nat) r colour :
  drawn_calls w cellsize linew !! i = Some (FillRect (Some r) colour) →
  ∃ x y,
    List.filter (λ p, drawn_state (cell_at w p.1 p.2)) draw_order !! i
    = Some (x, y)
    ∧ in_bounds x y = true
    ∧ r = cell_rect cellsize linew x y.
Proof.
  unfold drawn_calls. intros ([x y] & Hc & Hp)%list_lookup_fmap_Some.
  exists x, y. split; [assumption|].
  injection Hc as -> _. split; [|reflexivity].
  apply draw_order_elem, list_elem_of_In.
  apply list_elem_of_lookup_2, list_elem_of_In, filter_In in Hp.
  tauto.
Qed.

(** X21.  When a cell is at least as wide as the line between cells and
    the grid fits the 16-bit coordinates of a rectangle, every rectangle
    drawn stays on the screen of [MAX_X * cellsize] by [MAX_Y * cellsize]
    pixels, and no pixel is covered by the rectangles of two calls: two
    calls at different places of the list of calls never share a pixel. *)
Theorem draw_world_rects_disjoint (w : world) (cellsize linew : Z)
    (calls : list SDL_call) :
  well_formed w = true →
  0 < cellsize → 0 ≤ linew ≤ cellsize → cellsize * MAX_X ≤ 32767 →
  ∃ drawn,
    draw_world_rects w cellsize linew calls = Some (calls ++ drawn)
    ∧ (∀ i r colour px py,
         drawn !! i = Some (FillRect (Some r) colour) → covers r px py →
         0 ≤ px < MAX_X * cellsize ∧ 0 ≤ py < MAX_Y * cellsize)
    ∧ (∀ i j r1 colour1 r2 colour2 px py,
         i ≠ j →
         drawn !! i = Some (FillRect (Some r1) colour1) →
         drawn !! j = Some (FillRect (Some r2) colour2) →
         covers r1 px py → ¬ covers r2 px py).
Proof.
  intros Hwf Hsize Hline Hmax. dims.
  exists (drawn_calls w cellsize linew). split; [|split].
  - rewrite draw_world_rects_calls; [|assumption| |nia].
    + rewrite world_calls_drawn. reflexivity.
    + rewrite Z.abs_eq by lia. lia.
  - intros i r colour px py (x & y & _ & Hxy & ->)%drawn_calls_lookup Hcov.
    apply cell_rect_covers in Hcov; try assumption.
    apply in_bounds_true in Hxy. nia.
  - intros i j r1 colour1 r2 colour2 px py Hij
      (x1 & y1 & Hp1 & Hxy1 & ->)%drawn_calls_lookup
      (x2 & y2 & Hp2 & Hxy2 & ->)%drawn_calls_lookup Hcov1 Hcov2.
    apply cell_rect_covers in Hcov1; try assumption.
    apply cell_rect_covers in Hcov2; try assumption.
    assert (x1 = x2) as Hx by nia. assert (y1 = y2) as Hy by nia.
    subst x2 y2. apply Hij.
    eapply NoDup_lookup; [|exact Hp1|exact Hp2].
    apply NoDup_List_filter, draw_order_NoDup.
Qed.

Lemma draw_world_rects_disjoint_witness :
  well_formed two_firing = true
  ∧ 0 < CELLSIZE ∧ 0 ≤ LINE ≤ CELLSIZE ∧ CELLSIZE * MAX_X ≤ 32767
  ∧ ∃ drawn,
      draw_world_rects two_firing CELLSIZE LINE [] = Some ([] ++ drawn)
      ∧ (∀ i r colour px py,
           drawn !! i = Some (FillRect (Some r) colour) → covers r px py →
           0 ≤ px < MAX_X * CELLSIZE ∧ 0 ≤ py < MAX_Y * CELLSIZE)
      ∧ (∀ i j r1 colour1 r2 colour2 px py,
           i ≠ j →
           drawn !! i = Some (FillRect (Some r1) colour1) →
           drawn !! j = Some (FillRect (Some r2) colour2) →
           covers r1 px py → ¬ covers r2 px py).
Proof.
  split; [vm_compute; reflexivity|].
  split; [vm_compute; reflexivity|].
  split; [split; vm_compute; discriminate|].
  split; [vm_compute; discriminate|].
  apply (draw_world_rects_disjoint two_firing CELLSIZE LINE []);
    [vm_compute; reflexivity|vm_compute; reflexivity
    |split; vm_compute; discriminate|vm_compute; discriminate].
Defined.

(** ** The main loop *)









Lemma main_loop_exited (input : list (list SDL_event)) (st : machine) :
  m_user_exit st ≠ 0 →
  main_loop input st
  = Some (Exited {| m_world := m_world st; m_user_exit := m_user_exit st;
                    m_calls := m_calls st ++ [Quit] |}).
Proof.
  intros Hexit. apply Z.eqb_neq in Hexit.
  destruct input; cbn [main_loop]; rewrite Hexit; reflexivity.
Qed.

(** X22.  [user_exit] is read before it is ever written: when the
    uninitialised local happens not to hold 0, [main] seeds the array,
    opens the window and leaves at once, with no generation computed and
    nothing drawn, whatever the user does. *)
Theorem main_uninitialised_exit (world0 : world) (user_exit0 : Z) (g0 : rng)
    (input : list (list SDL_event)) :
  well_formed world0 = true → user_exit0 ≠ 0 →
  ∃ seeded g',
    populate world0 1 g0 = Some (seeded, g')
    ∧ main world0 user_exit0 g0 input
      = Some (Exited
                {| m_world := seeded; m_user_exit := user_exit0;
                   m_calls :=
                     [Init;
                      SetVideoMode (MAX_X * CELLSIZE) (MAX_Y * CELLSIZE) DEPTH;
                      Quit] |}).
Proof.
  intros Hwf Hexit.
  destruct (populate_cells world0 1 g0 Hwf) as (seeded & g' & Hseed & _).
  exists seeded, g'. split; [assumption|].
  unfold main. rewrite Hseed. cbn [mbind option_bind]. cbv zeta.
  rewrite main_loop_exited by assumption. reflexivity.
Qed.

Lemma main_uninitialised_exit_witness :
  well_formed (uniform_world READY) = true ∧ 1 ≠ 0
  ∧ ∃ seeded g',
      populate (uniform_world READY) 1 (constant_rng 8) = Some (seeded, g')
      ∧ main (uniform_world READY) 1 (constant_rng 8) [[]; [SDL_other]]
        = Some (Exited
                  {| m_world := seeded; m_user_exit := 1;
                     m_calls :=
                       [Init;
                        SetVideoMode (MAX_X * CELLSIZE) (MAX_Y * CELLSIZE)
                          DEPTH;
                        Quit] |}).
Proof.
  split; [vm_compute; reflexivity|]. split; [discriminate|].
  apply (main_uninitialised_exit (uniform_world READY) 1 (constant_rng 8)
           [[]; [SDL_other]]);
    [vm_compute; reflexivity|discriminate].
Defined.





(** ** Runs *)

(** X25.  Whatever the array held before seeding and however it is seeded,
    a run of at least one generation returns an array that holds only the
    three states: values that are no state do not survive [apply_rules]. *)
Theorem run_reaches_three_state (world0 : world) (rand : Z) (g0 : rng)
    (n : nat) :
  well_formed world0 = true →
  ∃ w, run world0 rand g0 (S n) = Some w ∧ all_three_state w = true.
Proof.
  intros Hwf0.
  destruct (populate_cells world0 rand g0 Hwf0)
    as (seeded & g' & Hseed & Hws & _).
  destruct (generations_total (S n) seeded Hws) as (w & Hgen & Hw).
  exists w. split.
  - unfold run. rewrite Hseed. exact Hgen.
  - apply all_three_state_iff. intros x y v Hv.
    pose proof (world_get_in_bounds w x y v Hw Hv) as Hxy.
    destruct (generations_three_state n seeded w x y Hws Hgen Hxy)
      as (v' & Hv' & Hstate).
    congruence.
Qed.

Lemma run_reaches_three_state_witness :
  well_formed (uniform_world 5) = true
  ∧ ∃ w, run (uniform_world 5) 1 (constant_rng 0) 1 = Some w
         ∧ all_three_state w = true.
Proof.
  split; [vm_compute; reflexivity|].
  apply (run_reaches_three_state (uniform_world 5) 1 (constant_rng 0) 0).
  vm_compute. reflexivity.
Defined.
